(** * CINN auto-schedule: linear random engine and sketch search space

    A shallow embedding of
    - [cinn::utils::LinearRandomEngine] (the Park-Miller generator with its
      [NormalizeState], [Next] and [ForkState] operations), and
    - [cinn::auto_schedule::SearchSpace] ([RandomScheduleMutate],
      [GetRandomInitialSketch], [CollectStateTransfer], the two pruned sketch
      generators and [GetInitialSketch]),
    followed by the properties of these operations. *)

From Stdlib Require Import ZArith QArith Lia.
From stdpp Require Import base list strings gmap.

Local Open Scope Z_scope.

(** ** Outcomes of a call

    A C++ call either returns, aborts the process through a failed glog
    [CHECK]/[LOG(FATAL)], runs into behaviour the language leaves undefined,
    or (in this model only) exhausts the iteration budget of a [while] loop
    whose termination depends on a collaborator. *)

Inductive UB : Set :=
  | ModuloByZero        (* [x % 0] *)
  | EndIteratorDeref    (* [it->first] with [it == map.end()] *)
  | BeginIteratorDecr   (* [--it] with [it == map.begin()] *)
  | SignedOverflow      (* [int] addition out of range *)
  | IteratorBeforeBegin. (* [v.end() - 1] with [v] empty *)

Inductive outcome (A : Type) : Type :=
  | Ok (a : A)
  | Fatal (msg : string)
  | Undefined (ub : UB)
  | OutOfFuel.

Arguments Ok {A} a.
Arguments Fatal {A} msg.
Arguments Undefined {A} ub.
Arguments OutOfFuel {A}.

#[global] Instance outcome_ret : MRet outcome := fun A a => Ok a.

#[global] Instance outcome_bind : MBind outcome := fun A B k m =>
  match m with
  | Ok a => k a
  | Fatal msg => Fatal msg
  | Undefined ub => Undefined ub
  | OutOfFuel => OutOfFuel
  end.

(** ** Machine integers *)

Definition uint32 (z : Z) : Prop := 0 <= z < 2 ^ 32.
Definition int64 (z : Z) : Prop := - 2 ^ 63 <= z < 2 ^ 63.

(** Conversion of a value to [uint64_t], and two's complement wrap-around of
    an [int64_t] result. *)
Definition to_uint64 (z : Z) : Z := z mod 2 ^ 64.
Definition wrap_int64 (z : Z) : Z := (z + 2 ^ 63) mod 2 ^ 64 - 2 ^ 63.

(** ** LinearRandomEngine *)

Module LinearRandomEngine.

Definition multiplier : Z := 48271.
Definition increment : Z := 0.
Definition modulus : Z := 2147483647.

Definition min : Z := 0.
Definition max : Z := to_uint64 (modulus - 1).

(** [GetDeviceRandomValue]: [dev] is the 32-bit value that
    [std::random_device()()] hands out for this call. *)
Definition GetDeviceRandomValue (dev : Z) : Z := Z.rem dev modulus.

Definition seed_check_msg : string := "Random seed must be greater than 0".

(** [NormalizeState]; C++ [%] truncates towards zero, hence [Z.rem]. The
    last line is [CHECK_GE(state, 0)]. *)
Definition NormalizeState (dev : Z) (state : Z) : outcome Z :=
  let state := if state =? -1 then GetDeviceRandomValue dev
               else Z.rem state modulus in
  let state := if state =? 0 then 1 else state in
  if 0 <=? state then Ok state else Fatal seed_check_msg.

(** [InitState] writes the normalized seed into the bound cell; the new
    content of the cell is the value returned. *)
Definition InitState (dev : Z) (state : Z) : outcome Z :=
  NormalizeState dev state.

(** [Next] advances the cell and returns the new state as [uint64_t]; the
    result is (returned value, new cell). The product and the sum are
    [int64_t] operations. *)
Definition Next (cell : Z) : Z * Z :=
  let cell' := Z.rem (wrap_int64 (increment + wrap_int64 (cell * multiplier)))
                     modulus in
  (to_uint64 cell', cell').

(** [ForkState]: the product and the remainder are taken in [uint64_t] and
    converted to [StateType]; the result is (child seed, new cell). *)
Definition ForkState (cell : Z) : Z * Z :=
  let '(out, cell') := Next cell in
  (wrap_int64 (to_uint64 (out * 32767) mod 1999999973), cell').

(** [ForkRandomState] builds an engine on the caller's cell and forks it. *)
Definition ForkRandomState (rand_seed : Z) : Z * Z := ForkState rand_seed.

(** The range [NormalizeState] is documented to produce. *)
Definition valid_state (s : Z) : Prop := 1 <= s <= modulus - 1.

(** The cell after [n] calls of [Next] (or of [operator()]). *)
Fixpoint Next_n (n : nat) (cell : Z) : Z :=
  match n with
  | O => cell
  | S n' => Next_n n' (Next cell).2
  end.

End LinearRandomEngine.

(** ** Rules, search states and samplers *)

(** Modelled from the spec: the enumeration [RuleApplyType] is declared in
    auto_gen_rule.h; the search space names three of its values, the fourth
    ([kApply], apply and keep the rule eligible) is the remaining one of the
    rule contract. *)
Inductive RuleApplyType : Set :=
  | kCannotApply
  | kApply
  | kApplyAndSkipThisRule
  | kApplyAndSkipAllRules.

#[global] Instance RuleApplyType_eq_dec : EqDecision RuleApplyType.
Proof. solve_decision. Defined.

(** An [AutoGenRule*]: rules are shared objects, states refer to them by
    handle. *)
Definition RuleId : Set := nat.

Section Types.
Context {IRSchedule Cost : Type}.

(** The pointee of a [SearchState]. *)
Record SearchState : Type := mkSearchState {
  ir_schedule : IRSchedule;
  predicted_cost : Cost;
  applicable_rules : list RuleId
}.

(** The capability contract of a rule. [Init] binds the rule to a schedule
    and classifies it, leaving the schedule as it is; [NumberApplicable] is
    what the rule reports once [Init] has run on that schedule; [Apply]
    rewrites the schedule the rule was bound to at the given position.
    [AnalyseApplyType] and [ApplyOnBlock] work on one block of a state, the
    latter returning the successor states. *)
Record AutoGenRule : Type := mkAutoGenRule {
  GetRuleName : string;
  Init : IRSchedule -> RuleApplyType;
  NumberApplicable : IRSchedule -> Z;
  Apply : IRSchedule -> Z -> IRSchedule;
  AnalyseApplyType : SearchState -> string -> RuleApplyType;
  ApplyOnBlock : SearchState -> string -> list SearchState
}.

(** The [SearchSpace] object: the schedule built from the tune task's
    lowered function bodies, the rule registry filled by the constructor and
    the depth bound. *)
Record SearchSpace : Type := mkSearchSpace {
  init_schedule : IRSchedule;
  sketch_rules_ : list RuleId;
  init_sketch_random_depth_ : Z
}.

(** One iteration of the block loop of [GetRandomPrunedInitialSketch], as it
    is recorded to tell the buffers apart: the block drawn, the step count
    passed to [CollectStateTransfer], the number of prune decisions drawn
    before the iteration, and the frontier the iteration wrote. *)
Record Expansion : Type := mkExpansion {
  exp_block : string;
  exp_steps : Z;
  exp_np : nat;
  exp_frontier : list SearchState
}.

End Types.

Arguments SearchState : clear implicits.
Arguments AutoGenRule : clear implicits.
Arguments SearchSpace : clear implicits.
Arguments Expansion : clear implicits.

(** Modelled from the spec: the samplers of rule_sampler.h and
    block_sampler.h, objects with a single operation that produces the next
    item, or the null pointer / the empty string once exhausted. *)
Record RuleSampler : Type := mkRuleSampler {
  rs_state : Type;
  rs_cur : rs_state;
  NextRule : rs_state -> option RuleId * rs_state
}.

Record BlockSampler : Type := mkBlockSampler {
  bs_state : Type;
  bs_cur : bs_state;
  NextBlock : bs_state -> string * bs_state
}.

(** Modelled from the spec: the [traversal] strategy yields the candidates
    in input order, each exactly once. *)
Definition TraversalRuleSampler (rules : list RuleId) : RuleSampler :=
  {| rs_state := list RuleId;
     rs_cur := rules;
     NextRule := fun l => match l with
                          | [] => (None, [])
                          | r :: l' => (Some r, l')
                          end |}.

Definition TraversalBlockSampler (blocks : list string) : BlockSampler :=
  {| bs_state := list string;
     bs_cur := blocks;
     NextBlock := fun l => match l with
                           | [] => (""%string, [])
                           | b :: l' => (b, l')
                           end |}.

(** What the host's entropy source contributes to one run: the value of
    [distribution(rng)] at the i-th draw of a step count in
    [GetRandomPrunedInitialSketch], and at the i-th prune decision in
    [CollectStateTransfer]; both generators are seeded from
    [std::random_device]. *)
Record HostEntropy : Type := mkHostEntropy {
  steps_draw : nat -> Z;
  prune_draw : nat -> Q
}.

(** The collaborators of the search space. *)
Class Collaborators (IRSchedule Cost RandState : Type) : Type := {
  (* names of the blocks [ir_schedule.GetAllBlocks()] returns, in order *)
  GetAllBlocks : IRSchedule -> list string;
  (* [SearchState::NOT_INIT_COST] *)
  NOT_INIT_COST : Cost;
  (* the rule object behind a handle *)
  rule : RuleId -> AutoGenRule IRSchedule Cost;
  (* the C library's [rand()], a function of its hidden state *)
  rand : RandState -> Z * RandState;
  (* Modelled from the spec: the [probabilistic] samplers, whose order is
     fixed by the root seed they are configured with *)
  ProbabilisticBlockSampler : list string -> BlockSampler;
  ProbabilisticRuleSampler : list RuleId -> RuleSampler;
  (* the default value of [prune_probability] in search_space.h *)
  default_prune_probability : Q
}.

Definition sampler_strategy_msg : string := "Unimplemented sampler strategy".

Section Samplers.
Context {IRSchedule Cost RandState : Type}.
Context {collab : Collaborators IRSchedule Cost RandState}.

(** Modelled from the spec: [Make] selects the sampler by strategy name and
    reports an error for an unknown name. *)
Definition RuleSampler_Make (rules : list RuleId) (strategy : string)
  : outcome RuleSampler :=
  if decide (strategy = "traversal"%string) then Ok (TraversalRuleSampler rules)
  else if decide (strategy = "probabilistic"%string)
       then Ok (ProbabilisticRuleSampler rules)
       else Fatal sampler_strategy_msg.

Definition BlockSampler_Make (blocks : list string) (strategy : string)
  : outcome BlockSampler :=
  if decide (strategy = "traversal"%string) then Ok (TraversalBlockSampler blocks)
  else if decide (strategy = "probabilistic"%string)
       then Ok (ProbabilisticBlockSampler blocks)
       else Fatal sampler_strategy_msg.

End Samplers.

(** ** The weight table: [std::map<int, AutoGenRule*>]

    The table is a finite map with integer keys; an iterator is an entry of
    the table or [end()] ([None]), and iteration follows the key order. *)

Definition lower_entry (e1 e2 : Z * RuleId) : Z * RuleId :=
  if e1.1 <=? e2.1 then e1 else e2.

Definition upper_entry (e1 e2 : Z * RuleId) : Z * RuleId :=
  if e2.1 <=? e1.1 then e1 else e2.

(** The entry with the least key among those satisfying [p]. *)
Fixpoint least_entry (p : Z -> bool) (l : list (Z * RuleId))
  : option (Z * RuleId) :=
  match l with
  | [] => None
  | e :: l' =>
      if p e.1 then
        Some (match least_entry p l' with
              | Some e' => lower_entry e e'
              | None => e
              end)
      else least_entry p l'
  end.

(** The entry with the greatest key among those satisfying [p]. *)
Fixpoint greatest_entry (p : Z -> bool) (l : list (Z * RuleId))
  : option (Z * RuleId) :=
  match l with
  | [] => None
  | e :: l' =>
      if p e.1 then
        Some (match greatest_entry p l' with
              | Some e' => upper_entry e e'
              | None => e
              end)
      else greatest_entry p l'
  end.

(** [m.lower_bound(k)]: the first entry whose key is not less than [k]. *)
Definition lower_bound (m : gmap Z RuleId) (k : Z) : option (Z * RuleId) :=
  least_entry (fun x => k <=? x) (map_to_list m).

(** [--it] for an iterator at key [k]: the entry just before it. *)
Definition prev_entry (m : gmap Z RuleId) (k : Z) : option (Z * RuleId) :=
  greatest_entry (fun x => x <? k) (map_to_list m).

Definition int_range (z : Z) : bool := (- 2 ^ 31 <=? z) && (z <? 2 ^ 31).

(** Conversion of an [int] to [size_t]. *)
Definition size_t_of_int (z : Z) : Z := z mod 2 ^ 64.

(** ** SearchSpace *)

Section SearchSpaceOps.
Context {IRSchedule Cost RandState : Type}.
Context {collab : Collaborators IRSchedule Cost RandState}.

Local Abbreviation State := (SearchState IRSchedule Cost).
Local Abbreviation Space := (SearchSpace IRSchedule).

(** *** RandomScheduleMutate *)

(** The loop over [ret->applicable_rules]: [done ++ todo] is the vector as
    it stands, the iterator is at the head of [todo]. The result is the
    vector, the weight table and [cur_weight] after the loop. *)
Fixpoint scan_rules (ir : IRSchedule) (done todo : list RuleId)
    (weight_to_rule : gmap Z RuleId) (cur_weight : Z)
  : outcome (list RuleId * gmap Z RuleId * Z) :=
  match todo with
  | [] => Ok (done, weight_to_rule, cur_weight)
  | r :: rest =>
      let apply_type := Init (rule r) ir in
      if decide (apply_type = kCannotApply) then
        scan_rules ir (done ++ [r]) rest weight_to_rule cur_weight
      else
        let weight_to_rule := <[cur_weight := r]> weight_to_rule in
        let cur_weight := cur_weight + NumberApplicable (rule r) ir in
        if negb (int_range cur_weight) then Undefined SignedOverflow
        else if decide (apply_type = kApplyAndSkipThisRule) then
          scan_rules ir done rest weight_to_rule cur_weight
        else if decide (apply_type = kApplyAndSkipAllRules) then
          Ok ([], weight_to_rule, cur_weight)
        else
          scan_rules ir (done ++ [r]) rest weight_to_rule cur_weight
  end.

(** The rules the loop enters into the weight table, in order: those whose
    [Init] does not answer [kCannotApply], up to and including the first that
    answers [kApplyAndSkipAllRules]. *)
Fixpoint entered_rules (ir : IRSchedule) (todo : list RuleId) : list RuleId :=
  match todo with
  | [] => []
  | r :: rest =>
      if decide (Init (rule r) ir = kCannotApply) then entered_rules ir rest
      else if decide (Init (rule r) ir = kApplyAndSkipAllRules) then [r]
      else r :: entered_rules ir rest
  end.

(** The table and the total weight obtained by entering [entered] one after
    the other, each at the running offset. *)
Fixpoint weight_table (ir : IRSchedule) (entered : list RuleId)
    (weight_to_rule : gmap Z RuleId) (cur_weight : Z) : gmap Z RuleId * Z :=
  match entered with
  | [] => (weight_to_rule, cur_weight)
  | r :: rest =>
      weight_table ir rest (<[cur_weight := r]> weight_to_rule)
                   (cur_weight + NumberApplicable (rule r) ir)
  end.

(** The sum of the weights of [entered]. *)
Definition total_weight (ir : IRSchedule) (entered : list RuleId) : Z :=
  foldr (fun r acc => NumberApplicable (rule r) ir + acc) 0 entered.

(** The shape of the table that sampling relies on: keys lie in
    [0, cur_weight], and an entry below [cur_weight] has a positive weight
    whose span ends at the next key or at [cur_weight]. *)
Definition table_inv (ir : IRSchedule) (t : gmap Z RuleId) (W : Z) : Prop :=
  0 <= W /\
  forall k r, t !! k = Some r ->
    k <= W /\
    (k < W -> 0 < NumberApplicable (rule r) ir /\
              (k + NumberApplicable (rule r) ir = W \/
               is_Some (t !! (k + NumberApplicable (rule r) ir)))).

(** Every rule that can apply reports exactly one applicable position. *)
Definition unit_weights : Prop :=
  forall r (ir : IRSchedule),
    Init (rule r) ir <> kCannotApply -> NumberApplicable (rule r) ir = 1.

(** [rand()] returns a value in [0, RAND_MAX]. *)
Definition rand_nonneg : Prop := forall g : RandState, 0 <= (rand g).1.

(** A property of programs that every rewrite preserves. *)
Definition preserved (P : IRSchedule -> Prop) : Prop :=
  forall r ir index, P ir -> P (Apply (rule r) ir index).

(** Step 3: from the value [r] of [rand()] to the sampled rule and the index
    passed to its [Apply]. *)
Definition sample_rule (weight_to_rule : gmap Z RuleId) (cur_weight : Z)
    (r : Z) : outcome (RuleId * Z) :=
  if decide (cur_weight = 0) then Undefined ModuloByZero
  else
    let sample_index := Z.rem r cur_weight in
    match lower_bound weight_to_rule sample_index with
    | None => Undefined EndIteratorDeref
    | Some (first, second) =>
        if sample_index <? first then
          match prev_entry weight_to_rule first with
          | None => Undefined BeginIteratorDecr
          | Some (first', second') => Ok (second', sample_index - first')
          end
        else Ok (second, sample_index - first)
    end.

(** [SearchState ret(state)] is taken as a copy of the state, as the data
    model describes it. *)
Definition RandomScheduleMutate (state : State) (g : RandState)
  : outcome (State * RandState) :=
  '(rules, weight_to_rule, cur_weight) ←
    scan_rules (ir_schedule state) [] (applicable_rules state) ∅ 0;
  let ret := mkSearchState (ir_schedule state) (predicted_cost state) rules in
  if decide (weight_to_rule = ∅) then Ok (ret, g)
  else
    let '(r, g') := rand g in
    '(sample, index) ← sample_rule weight_to_rule cur_weight r;
    Ok (mkSearchState (Apply (rule sample) (ir_schedule ret) index)
                      (predicted_cost ret) (applicable_rules ret), g').

(** *** GetRandomInitialSketch *)

(** The [for] loop over the depth, [n] iterations left. *)
Fixpoint mutate_loop (n : nat) (state : State) (g : RandState)
  : outcome (State * RandState) :=
  match n with
  | O => Ok (state, g)
  | S n' =>
      '(state', g') ← RandomScheduleMutate state g;
      if decide (applicable_rules state' = []) then Ok (state', g')
      else mutate_loop n' state' g'
  end.

(** The [while (result.size() < num)] loop, [n] sketches missing. The
    vector is taken to have room for the [n] states. *)
Fixpoint sketch_loop (ss : Space) (n : nat) (result : list State)
    (g : RandState) : outcome (list State * RandState) :=
  match n with
  | O => Ok (result, g)
  | S n' =>
      let state := mkSearchState (init_schedule ss) NOT_INIT_COST
                                 (sketch_rules_ ss) in
      '(state', g') ←
        mutate_loop (Z.to_nat (init_sketch_random_depth_ ss)) state g;
      sketch_loop ss n' (result ++ [state']) g'
  end.

Definition GetRandomInitialSketch (ss : Space) (num : Z) (g : RandState)
  : outcome (list State * RandState) :=
  sketch_loop ss (Z.to_nat (size_t_of_int num)) [] g.

(** *** CollectStateTransfer *)

Definition CheckBlockExist (state : State) (block_name : string) : bool :=
  existsb (fun name => bool_decide (name = block_name))
          (GetAllBlocks (ir_schedule state)).

(** Whether the state at hand is pruned; [np] counts the prune decisions
    drawn from the host so far. *)
Definition need_prune (host : HostEntropy) (prune_by_rule : bool)
    (prune_probability : Q) (type : RuleApplyType) (np : nat) : bool * nat :=
  if prune_by_rule then (bool_decide (type = kApplyAndSkipAllRules), np)
  else (negb (Qle_bool prune_probability (prune_draw host np)), S np).

(** The [for] loop over [layer] for one rule: the states that stay in the
    layer, the new states, and the number of prune draws. *)
Fixpoint transfer_layer (host : HostEntropy) (r : AutoGenRule IRSchedule Cost)
    (block_name : string) (prune_by_rule : bool) (prune_probability : Q)
    (layer : list State) (np : nat) : list State * list State * nat :=
  match layer with
  | [] => ([], [], np)
  | st :: rest =>
      if negb (CheckBlockExist st block_name) then
        let '(kept, new_states, np') :=
          transfer_layer host r block_name prune_by_rule prune_probability
                         rest np in
        (st :: kept, new_states, np')
      else
        let type := AnalyseApplyType r st block_name in
        if decide (type = kCannotApply) then
          let '(kept, new_states, np') :=
            transfer_layer host r block_name prune_by_rule prune_probability
                           rest np in
          (st :: kept, new_states, np')
        else
          let tmp_states := ApplyOnBlock r st block_name in
          let '(prune, np1) :=
            need_prune host prune_by_rule prune_probability type np in
          let '(kept, new_states, np') :=
            transfer_layer host r block_name prune_by_rule prune_probability
                           rest np1 in
          (if prune then kept else st :: kept, tmp_states ++ new_states, np')
  end.

(** The [while] loop; [fuel] bounds the number of rules drawn. *)
Fixpoint transfer_loop (host : HostEntropy) (fuel : nat) {S : Type}
    (next_rule : S -> option RuleId * S) (sampler : S)
    (block_name : string) (steps : Z) (prune_by_rule : bool)
    (prune_probability : Q) (step : Z) (layer : list State) (np : nat)
  : outcome (list State * nat) :=
  if (step <? steps) || (steps =? 0) then
    match next_rule sampler with
    | (None, _) => Ok (layer, np)
    | (Some r, sampler') =>
        match fuel with
        | O => OutOfFuel
        | Datatypes.S fuel' =>
            let '(kept, new_states, np') :=
              transfer_layer host (rule r) block_name prune_by_rule
                             prune_probability layer np in
            transfer_loop host fuel' next_rule sampler' block_name steps
                          prune_by_rule prune_probability (step + 1)
                          (kept ++ new_states) np'
        end
    end
  else Ok (layer, np).

Definition CollectStateTransfer (host : HostEntropy) (fuel : nat)
    (state : State) (block_name : string) (rule_sampler : RuleSampler)
    (steps : Z) (prune_by_rule : bool) (prune_probability : Q) (np : nat)
  : outcome (list State * nat) :=
  transfer_loop host fuel (NextRule rule_sampler) (rs_cur rule_sampler)
                block_name steps prune_by_rule prune_probability 0 [state] np.

(** The layer after the rules [rules] have been drawn in this order, one
    step each. *)
Fixpoint traverse_rules (host : HostEntropy) (block_name : string)
    (prune_by_rule : bool) (prune_probability : Q) (rules : list RuleId)
    (layer : list State) (np : nat) : list State * nat :=
  match rules with
  | [] => (layer, np)
  | r :: rest =>
      let '(kept, new_states, np') :=
        transfer_layer host (rule r) block_name prune_by_rule
                       prune_probability layer np in
      traverse_rules host block_name prune_by_rule prune_probability rest
                     (kept ++ new_states) np'
  end.

(** No rule ever answers [kApplyAndSkipAllRules] on a block. *)
Definition never_skip_all : Prop :=
  forall r (st : State) block,
    AnalyseApplyType (rule r) st block <> kApplyAndSkipAllRules.

(** [std::uniform_real_distribution<double>(0, 1)] draws from [0, 1). *)
Definition unit_interval_draws (host : HostEntropy) : Prop :=
  forall i, (0 <= prune_draw host i)%Q /\ (prune_draw host i < 1)%Q.

(** *** The pruned sketch generators *)

Definition init_rules_msg : string := "number of init rules cannot be 0".

(** The [for] loop over [*p_states_cur], appending to [*p_states_next]. *)
Fixpoint expand_states (expand : State -> nat -> outcome (list State * nat))
    (cur next : list State) (np : nat) : outcome (list State * nat) :=
  match cur with
  | [] => Ok (next, np)
  | state :: rest =>
      '(new_states, np') ← expand state np;
      expand_states expand rest (next ++ new_states) np'
  end.

(** The body of the [for] loop in [GetRandomPrunedInitialSketch]: a fresh
    probabilistic rule sampler and the transfers of one state. *)
Definition random_pruned_expand (host : HostEntropy) (fuel : nat)
    (init_rules : list RuleId) (block_name : string) (steps : Z)
    (state : State) (np : nat) : outcome (list State * nat) :=
  rule_sampler ← RuleSampler_Make init_rules "probabilistic";
  CollectStateTransfer host fuel state block_name rule_sampler steps false 1 np.

(** The body of the [for] loop in [GetRulePrunedInitialSketch]. *)
Definition rule_pruned_expand_state (host : HostEntropy) (fuel : nat)
    (init_rules : list RuleId) (block_name : string)
    (state : State) (np : nat) : outcome (list State * nat) :=
  rule_sampler ← RuleSampler_Make init_rules "traversal";
  CollectStateTransfer host fuel state block_name rule_sampler 0 true
                       default_prune_probability np.

(** The [while] loop of [GetRandomPrunedInitialSketch]; [cur] and [next] are
    the buffers behind [p_states_cur] and [p_states_next], [ns] counts the
    step draws. The result is the two buffers and the draw counters. *)
Fixpoint random_pruned_loop (ss : Space) (host : HostEntropy) (fuel0 fuel : nat)
    {S : Type} (next_block : S -> string * S) (sampler : S)
    (init_rules : list RuleId) (total_steps : Z) (cur next : list State)
    (ns np : nat) : outcome (list State * list State * nat * nat) :=
  let '(block_name, sampler') := next_block sampler in
  if decide (block_name = ""%string) then Ok (cur, next, ns, np)
  else if negb (total_steps <? init_sketch_random_depth_ ss)
  then Ok (cur, next, ns, np)
  else
    match fuel with
    | O => OutOfFuel
    | Datatypes.S fuel' =>
        let steps := steps_draw host ns in
        let steps :=
          if init_sketch_random_depth_ ss <? total_steps + steps
          then init_sketch_random_depth_ ss - total_steps else steps in
        let total_steps := total_steps + steps in
        '(next', np') ←
          expand_states
            (random_pruned_expand host fuel0 init_rules block_name steps)
            cur [] np;
        random_pruned_loop ss host fuel0 fuel' next_block sampler' init_rules
                           total_steps next' cur (Datatypes.S ns) np'
    end.

(** [std::transform] runs from [sketch_rules_.begin()] to
    [sketch_rules_.end() - 1], an iterator that does not exist when the
    registry is empty; the [CHECK] on [init_rules] comes after it. *)
Definition GetRandomPrunedInitialSketch (ss : Space) (host : HostEntropy)
    (fuel : nat) (ns np : nat) : outcome (list State * nat * nat) :=
  let all_blocks := GetAllBlocks (init_schedule ss) in
  block_sampler ← BlockSampler_Make all_blocks "probabilistic";
  if bool_decide (sketch_rules_ ss = []) then Undefined IteratorBeforeBegin
  else
  let init_rules := removelast (sketch_rules_ ss) in
  if bool_decide (init_rules = []) then Fatal init_rules_msg
  else
    let init_state := mkSearchState (init_schedule ss) NOT_INIT_COST [] in
    '(p_states_cur, p_states_next, ns', np') ←
      random_pruned_loop ss host fuel fuel (NextBlock block_sampler)
                         (bs_cur block_sampler) init_rules 0 [init_state] []
                         ns np;
    Ok (p_states_next, ns', np').

(** The [while] loop of [GetRandomPrunedInitialSketch] once more, with one
    buffer only: [cur] is the frontier the next iteration reads. Each
    iteration is recorded with the block it drew, the step count it used,
    the number of prune decisions drawn before it and the frontier it
    wrote; the result is the record of the iterations in order, and the
    draw counters. *)
Fixpoint random_pruned_history (ss : Space) (host : HostEntropy)
    (fuel0 fuel : nat) {S : Type} (next_block : S -> string * S) (sampler : S)
    (init_rules : list RuleId) (total_steps : Z) (cur : list State)
    (ns np : nat) : outcome (list (Expansion IRSchedule Cost) * nat * nat) :=
  let '(block_name, sampler') := next_block sampler in
  if decide (block_name = ""%string) then Ok ([], ns, np)
  else if negb (total_steps <? init_sketch_random_depth_ ss)
  then Ok ([], ns, np)
  else
    match fuel with
    | O => OutOfFuel
    | Datatypes.S fuel' =>
        let steps := steps_draw host ns in
        let steps :=
          if init_sketch_random_depth_ ss <? total_steps + steps
          then init_sketch_random_depth_ ss - total_steps else steps in
        let total_steps := total_steps + steps in
        '(next', np') ←
          expand_states
            (random_pruned_expand host fuel0 init_rules block_name steps)
            cur [] np;
        '(later, ns', np'') ←
          random_pruned_history ss host fuel0 fuel' next_block sampler'
                                init_rules total_steps next'
                                (Datatypes.S ns) np';
        Ok (mkExpansion block_name steps np next' :: later, ns', np'')
    end.

(** The [while] loop of [GetRulePrunedInitialSketch]. No prune decision is
    drawn on this path, the draw counter stays at 0. *)
Fixpoint rule_pruned_loop (host : HostEntropy) (fuel0 fuel : nat) {S : Type}
    (next_block : S -> string * S) (sampler : S) (init_rules : list RuleId)
    (cur next : list State) : outcome (list State * list State) :=
  let '(block_name, sampler') := next_block sampler in
  if decide (block_name = ""%string) then Ok (cur, next)
  else
    match fuel with
    | O => OutOfFuel
    | Datatypes.S fuel' =>
        '(next', _) ←
          expand_states
            (rule_pruned_expand_state host fuel0 init_rules block_name)
            cur [] O;
        rule_pruned_loop host fuel0 fuel' next_block sampler' init_rules
                         next' cur
    end.

(** The registry is copied as in [GetRandomPrunedInitialSketch], up to
    [sketch_rules_.end() - 1]. *)
Definition GetRulePrunedInitialSketch (ss : Space) (host : HostEntropy)
    (fuel : nat) : outcome (list State) :=
  let all_blocks := rev (GetAllBlocks (init_schedule ss)) in
  block_sampler ← BlockSampler_Make all_blocks "traversal";
  if bool_decide (sketch_rules_ ss = []) then Undefined IteratorBeforeBegin
  else
  let init_rules := removelast (sketch_rules_ ss) in
  if bool_decide (init_rules = []) then Fatal init_rules_msg
  else
    let init_state := mkSearchState (init_schedule ss) NOT_INIT_COST [] in
    '(p_states_cur, p_states_next) ←
      rule_pruned_loop host fuel fuel (NextBlock block_sampler)
                       (bs_cur block_sampler) init_rules [init_state] [];
    Ok p_states_next.

(** The frontier that the rule-pruned policy produces from [cur] on one
    block, and after a sequence of blocks. *)
Definition rule_pruned_expand (host : HostEntropy) (init_rules : list RuleId)
    (block_name : string) (cur : list State) : list State :=
  flat_map (fun state =>
              (traverse_rules host block_name true default_prune_probability
                              init_rules [state] O).1) cur.

Definition rule_pruned_frontier (host : HostEntropy) (init_rules : list RuleId)
    (visited : list string) (cur : list State) : list State :=
  fold_left (fun cur block_name =>
               rule_pruned_expand host init_rules block_name cur) visited cur.

(** *** GetInitialSketch *)

Definition strategy_msg : string := "Unimplemented init sketch strategy".

(** The [for] loop over the reversed sketches [it], pushing to [result]
    until it holds [num] states. *)
Fixpoint push_sketches (num : Z) (result it : list State) : list State :=
  match it with
  | [] => result
  | s :: it' =>
      let result := result ++ [s] in
      if Z.of_nat (length result) =? num then result
      else push_sketches num result it'
  end.

Fixpoint initial_sketch_loop (ss : Space) (host : HostEntropy)
    (fuel0 fuel : nat) (num : Z) (strategy : string) (result : list State)
    (ns np : nat) : outcome (list State * nat * nat) :=
  if Z.of_nat (length result) <? num then
    match fuel with
    | O => OutOfFuel
    | Datatypes.S fuel' =>
        '(sketchs, ns', np') ←
          (if decide (strategy = "rule_prune"%string) then
             sketchs ← GetRulePrunedInitialSketch ss host fuel0;
             Ok (sketchs, ns, np)
           else if decide (strategy = "random_prune"%string) then
             GetRandomPrunedInitialSketch ss host fuel0 ns np
           else Fatal strategy_msg);
        initial_sketch_loop ss host fuel0 fuel' num strategy
                            (push_sketches num result (rev sketchs)) ns' np'
    end
  else Ok (result, ns, np).

(** [fuel] bounds the iterations of each of the loops involved. The
    printing of the sketches before the return is left out. *)
Definition GetInitialSketch (ss : Space) (host : HostEntropy) (fuel : nat)
    (num : Z) (strategy : string) (ns np : nat)
  : outcome (list State * nat * nat) :=
  initial_sketch_loop ss host fuel fuel (size_t_of_int num) strategy [] ns np.

End SearchSpaceOps.

(** ** The remaining operations of the search space *)

Section SearchSpaceMore.
Context {IRSchedule Cost RandState : Type}.
Context {collab : Collaborators IRSchedule Cost RandState}.

Local Abbreviation State := (SearchState IRSchedule Cost).
Local Abbreviation Space := (SearchSpace IRSchedule).


Definition ManualScheduleMutate (state : State) : State := state.

(** [GetScheduleMutate]: [use_cost_model] is the value of
    [FLAGS_auto_schedule_use_cost_model], [Predict] the prediction of the
    cost model for the task's target. *)
Definition GetScheduleMutate (use_cost_model : bool)
    (Predict : IRSchedule -> Cost) (state : State) (g : RandState)
  : outcome (State * RandState) :=
  let has_manual_schedule := false in
  if has_manual_schedule then Ok (ManualScheduleMutate state, g)
  else
    '(ret, g') ← RandomScheduleMutate state g;
    if use_cost_model then
      Ok (mkSearchState (ir_schedule ret) (Predict (ir_schedule ret))
                        (applicable_rules ret), g')
    else Ok (ret, g').

(** Whether the scan of [rules] meets a rule that answers
    [kApplyAndSkipAllRules]. *)
Definition skip_all_reached (ir : IRSchedule) (rules : list RuleId) : bool :=
  existsb (fun r => bool_decide (Init (rule r) ir = kApplyAndSkipAllRules))
          rules.

(** The vector of applicable rules one round leaves. *)
Definition rules_after_round (ir : IRSchedule) (rules : list RuleId)
  : list RuleId :=
  if skip_all_reached ir rules then []
  else filter (fun r => Init (rule r) ir <> kApplyAndSkipThisRule) rules.



End SearchSpaceMore.

(** ** A concrete instance

    A small program representation that records the rewrites applied to it,
    rules with constant answers, the sample [rand] of the C standard, and
    probabilistic samplers driven by the linear random engine. It serves to
    run the operations above on concrete inputs. *)

Module Toy.

Inductive Rewrite : Set :=
  | Applied (r : RuleId) (index : Z)
  | AppliedOnBlock (r : RuleId) (block : string).

Record Prog : Set := mkProg {
  blocks : list string;
  trace : list Rewrite
}.

Definition rewrite (p : Prog) (w : Rewrite) : Prog :=
  mkProg (blocks p) (trace p ++ [w]).

Definition State : Type := SearchState Prog (option Q).

(** A rule that answers [Init] with [type] and [count] positions, and
    [AnalyseApplyType] with [block_type]. *)
Definition const_rule (id : RuleId) (name : string) (type : RuleApplyType)
    (count : Z) (block_type : RuleApplyType) : AutoGenRule Prog (option Q) :=
  {| GetRuleName := name;
     Init := fun _ => type;
     NumberApplicable := fun _ => count;
     Apply := fun ir index => rewrite ir (Applied id index);
     AnalyseApplyType := fun _ _ => block_type;
     ApplyOnBlock := fun st block =>
       [mkSearchState (rewrite (ir_schedule st) (AppliedOnBlock id block))
                      (predicted_cost st) (applicable_rules st)] |}.

Definition no_rule : AutoGenRule Prog (option Q) :=
  {| GetRuleName := "";
     Init := fun _ => kCannotApply;
     NumberApplicable := fun _ => 0;
     Apply := fun ir _ => ir;
     AnalyseApplyType := fun _ _ => kCannotApply;
     ApplyOnBlock := fun _ _ => [] |}.

(** The sample implementation of [rand] in the C standard, with its
    [unsigned long next] as the state (initially 1). *)
Definition c_rand (next : Z) : Z * Z :=
  let next := (next * 1103515245 + 12345) mod 2 ^ 64 in
  (((next / 65536) mod 2 ^ 32) mod 32768, next).

(** Modelled from the spec: a probabilistic sampler that draws its items
    without replacement, each index taken from the linear random engine
    bound to a seed cell. *)
Definition engine_draw {A : Type} (st : Z * list A) : option A * (Z * list A) :=
  let '(cell, l) := st in
  match l with
  | [] => (None, st)
  | _ :: _ =>
      let '(out, cell') := LinearRandomEngine.Next cell in
      let i := Z.to_nat (out mod Z.of_nat (length l)) in
      (l !! i, (cell', delete i l))
  end.

Definition root_seed : Z := 42.

Definition engine_rule_sampler (rules : list RuleId) : RuleSampler :=
  {| rs_state := Z * list RuleId;
     rs_cur := (root_seed, rules);
     NextRule := engine_draw |}.

Definition engine_block_sampler (names : list string) : BlockSampler :=
  {| bs_state := Z * list string;
     bs_cur := (root_seed, names);
     NextBlock := fun st => let '(o, st') := engine_draw st in
                            (default ""%string o, st') |}.

Definition collaborators (rules : list (AutoGenRule Prog (option Q)))
  : Collaborators Prog (option Q) Z :=
  {| GetAllBlocks := blocks;
     NOT_INIT_COST := None;
     rule := fun id => default no_rule (rules !! id);
     rand := c_rand;
     ProbabilisticBlockSampler := engine_block_sampler;
     ProbabilisticRuleSampler := engine_rule_sampler;
     default_prune_probability := 1%Q |}.

(** The registry the constructor builds, with every rule applicable at one
    position. *)
Definition unit_rules : list (AutoGenRule Prog (option Q)) :=
  [ const_rule 0%nat "AutoInline" kApply 1 kApply;
    const_rule 1%nat "MultiLevelTiling" kApply 1 kApply;
    const_rule 2%nat "AutoUnroll" kApply 1 kApply;
    const_rule 3%nat "SkipRule" kApply 1 kApply ].

(** The same registry with a tiling rule applicable at three positions. *)
Definition wide_rules : list (AutoGenRule Prog (option Q)) :=
  [ const_rule 0%nat "AutoInline" kCannotApply 0 kCannotApply;
    const_rule 1%nat "MultiLevelTiling" kApply 3 kApply;
    const_rule 2%nat "AutoUnroll" kCannotApply 0 kCannotApply;
    const_rule 3%nat "SkipRule" kCannotApply 0 kCannotApply ].

(** A registry none of whose rules applies to any block. *)
Definition idle_rules : list (AutoGenRule Prog (option Q)) :=
  [ const_rule 0%nat "AutoInline" kCannotApply 0 kCannotApply;
    const_rule 1%nat "MultiLevelTiling" kCannotApply 0 kCannotApply;
    const_rule 2%nat "AutoUnroll" kCannotApply 0 kCannotApply;
    const_rule 3%nat "SkipRule" kCannotApply 0 kCannotApply ].

(** A registry whose applicable rules report no applicable position. *)
Definition zero_rules : list (AutoGenRule Prog (option Q)) :=
  [ const_rule 0%nat "AutoInline" kApply 0 kCannotApply;
    const_rule 1%nat "MultiLevelTiling" kApply 0 kCannotApply;
    const_rule 2%nat "AutoUnroll" kCannotApply 0 kCannotApply;
    const_rule 3%nat "SkipRule" kCannotApply 0 kCannotApply ].

Definition one_block : Prog := mkProg ["B0"%string] [].
Definition two_blocks : Prog := mkProg ["B0"%string; "B1"%string] [].

Definition space (p : Prog) : SearchSpace Prog :=
  {| init_schedule := p;
     sketch_rules_ := [0; 1; 2; 3]%nat;
     init_sketch_random_depth_ := 6 |}.

(** A host whose step draws are all [steps] and whose prune draws are all
    [draw]. *)
Definition host (steps : Z) (draw : Q) : HostEntropy :=
  {| steps_draw := fun _ => steps; prune_draw := fun _ => draw |}.

Definition registry_state (p : Prog) : State :=
  mkSearchState p None [0; 1; 2; 3]%nat.

Definition init_state (p : Prog) : State := mkSearchState p None [].

(** A registry with an inlining rule that excludes itself, a tiling rule
    applicable at three positions and a skip rule applicable at one. *)
Definition mixed_rules : list (AutoGenRule Prog (option Q)) :=
  [ const_rule 0%nat "AutoInline" kApplyAndSkipThisRule 1 kApply;
    const_rule 1%nat "MultiLevelTiling" kApply 3 kApply;
    const_rule 2%nat "AutoUnroll" kCannotApply 0 kCannotApply;
    const_rule 3%nat "SkipRule" kApply 1 kApply ].

Definition no_blocks : Prog := mkProg [] [].




(** A cost model that charges one unit per rewrite applied. *)
Definition rewrite_count (p : Prog) : option Q :=
  Some (inject_Z (Z.of_nat (length (trace p)))).

End Toy.

(** * Properties of the linear random engine *)

Section EngineFacts.
Import LinearRandomEngine.

Lemma wrap_int64_small z : int64 z -> wrap_int64 z = z.
Proof.
  unfold int64, wrap_int64. intros Hz.
  rewrite Z.mod_small; lia.
Qed.

Lemma to_uint64_small z : 0 <= z < 2 ^ 64 -> to_uint64 z = z.
Proof. unfold to_uint64. intros Hz. apply Z.mod_small; lia. Qed.

(** On a valid state the 64-bit arithmetic of [Next] never wraps. *)
Lemma Next_valid s :
  valid_state s ->
  Next s = ((s * multiplier) mod modulus, (s * multiplier) mod modulus).
Proof.
  unfold valid_state, Next, increment, multiplier, modulus. intros Hs.
  rewrite (wrap_int64_small (s * 48271)) by (unfold int64; lia).
  rewrite Z.add_0_l.
  rewrite (wrap_int64_small (s * 48271)) by (unfold int64; lia).
  rewrite Z.rem_mod_nonneg by lia.
  pose proof (Z.mod_pos_bound (s * 48271) 2147483647 ltac:(lia)).
  rewrite to_uint64_small by lia. reflexivity.
Qed.

(** [multiplier] is invertible modulo [modulus], so a valid state is
    never sent to zero. *)
Lemma Next_stays_valid s :
  valid_state s -> valid_state ((s * multiplier) mod modulus).
Proof.
  unfold valid_state, multiplier, modulus. intros Hs.
  pose proof (Z.mod_pos_bound (s * 48271) 2147483647 ltac:(lia)) as Hb.
  pose proof (Z.div_mod (s * 48271) 2147483647 ltac:(lia)) as Hd.
  assert ((s * 48271) mod 2147483647 <> 0); [|lia].
  intros H0. rewrite H0 in Hd.
  set (q := s * 48271 / 2147483647) in *. clearbody q. lia.
Qed.

(** What [ForkState] computes on a valid state. *)
Lemma ForkState_valid s :
  valid_state s ->
  ForkState s =
    (((s * multiplier) mod modulus * 32767) mod 1999999973,
     (s * multiplier) mod modulus).
Proof.
  intros Hs. unfold ForkState. rewrite (Next_valid s Hs).
  apply Next_stays_valid in Hs.
  set (s1 := (s * multiplier) mod modulus) in *. clearbody s1.
  unfold valid_state, modulus in Hs.
  rewrite to_uint64_small by lia.
  pose proof (Z.mod_pos_bound (s1 * 32767) 1999999973 ltac:(lia)).
  rewrite wrap_int64_small by (unfold int64; lia). reflexivity.
Qed.

(** Two successive children are congruent modulo 1999999973 only if the
    two successive states are. *)
Lemma children_differ s1 :
  valid_state s1 ->
  (s1 * 32767) mod 1999999973 <>
  ((s1 * multiplier) mod modulus * 32767) mod 1999999973.
Proof.
  unfold valid_state, multiplier, modulus. intros Hs Heq.
  pose proof (Z.mod_pos_bound (s1 * 48271) 2147483647 ltac:(lia)) as Hb.
  pose proof (Z.div_mod (s1 * 48271) 2147483647 ltac:(lia)) as Hd.
  set (s2 := (s1 * 48271) mod 2147483647) in *.
  set (q := s1 * 48271 / 2147483647) in *. clearbody s2 q.
  pose proof (Z.div_mod (s1 * 32767) 1999999973 ltac:(lia)) as Hd1.
  pose proof (Z.div_mod (s2 * 32767) 1999999973 ltac:(lia)) as Hd2.
  rewrite <- Heq in Hd2.
  set (r := (s1 * 32767) mod 1999999973) in *.
  set (q1 := s1 * 32767 / 1999999973) in *.
  set (q2 := s2 * 32767 / 1999999973) in *. clearbody r q1 q2.
  lia.
Qed.

(** C3: a seed that is non-negative, the sentinel -1, or a
  multiple of the modulus is normalized into [1, modulus - 1]; any other
  negative seed fails the check of the normalized value; 0 is normalized to
  1 and the sentinel never to 0. *)
Theorem NormalizeState_range (dev state : Z) :
uint32 dev -> int64 state ->
(0 <= state \/ state = -1 \/ Z.rem state modulus = 0 ->
 exists s, NormalizeState dev state = Ok s /\ valid_state s) /\
(state < -1 -> Z.rem state modulus <> 0 ->
 NormalizeState dev state = Fatal seed_check_msg) /\
NormalizeState dev 0 = Ok 1 /\
(forall s, NormalizeState dev (-1) = Ok s -> s <> 0).
Proof.
unfold uint32, int64, NormalizeState, GetDeviceRandomValue, valid_state, modulus.
intros Hdev Hstate. split; [|split; [|split]].
- intros [Hpos|[->|Hmul]].
  + destruct (state =? -1) eqn:Hs; [lia|].
    pose proof (Z.rem_bound_pos state 2147483647 Hpos ltac:(lia)) as Hb.
    destruct (Z.rem state 2147483647 =? 0) eqn:Hz.
    * exists 1. split; [done|lia].
    * apply Z.eqb_neq in Hz. exists (Z.rem state 2147483647).
      destruct (0 <=? Z.rem state 2147483647) eqn:Hle; [split; [done|lia]|].
      apply Z.leb_gt in Hle. lia.
  + change (-1 =? -1) with true. cbn iota.
    pose proof (Z.rem_bound_pos dev 2147483647 ltac:(lia) ltac:(lia)) as Hb.
    destruct (Z.rem dev 2147483647 =? 0) eqn:Hz.
    * exists 1. split; [done|lia].
    * apply Z.eqb_neq in Hz. exists (Z.rem dev 2147483647).
      destruct (0 <=? Z.rem dev 2147483647) eqn:Hle; [split; [done|lia]|].
      apply Z.leb_gt in Hle. lia.
  + destruct (state =? -1) eqn:Hs.
    { apply Z.eqb_eq in Hs. subst state. by vm_compute in Hmul. }
    rewrite Hmul. exists 1. split; [done|lia].
- intros Hneg Hrem. destruct (state =? -1) eqn:Hs; [lia|].
  pose proof (Z.rem_bound_pos_neg state 2147483647 ltac:(lia) ltac:(lia)) as Hb.
  destruct (Z.rem state 2147483647 =? 0) eqn:Hz; [lia|].
  destruct (0 <=? Z.rem state 2147483647) eqn:Hle; [|done].
  apply Z.leb_le in Hle. lia.
- done.
- change (-1 =? -1) with true. cbn iota. intros s.
  destruct (Z.rem dev 2147483647 =? 0) eqn:Hz.
  + by intros [= <-].
  + apply Z.eqb_neq in Hz.
    destruct (0 <=? Z.rem dev 2147483647); [by intros [= <-]|done].
Qed.

(** C8: on a valid state [ForkState] advances the state once by
  the recurrence and returns (new state * 32767) mod 1999999973; the state
  stays valid, and two consecutive forks return different children. *)
Theorem ForkState_children (s : Z) :
valid_state s ->
let s1 := (increment + s * multiplier) mod modulus in
let s2 := (increment + s1 * multiplier) mod modulus in
ForkState s = ((s1 * 32767) mod 1999999973, s1) /\
ForkState s1 = ((s2 * 32767) mod 1999999973, s2) /\
valid_state s1 /\ valid_state s2 /\
(ForkState s).1 <> (ForkState s1).1.
Proof.
intros Hs. cbv zeta.
change (increment + s * multiplier) with (s * multiplier).
set (s1 := (s * multiplier) mod modulus).
change (increment + s1 * multiplier) with (s1 * multiplier).
set (s2 := (s1 * multiplier) mod modulus).
pose proof (Next_stays_valid s Hs) as Hs1. fold s1 in Hs1.
pose proof (Next_stays_valid s1 Hs1) as Hs2. fold s2 in Hs2.
rewrite (ForkState_valid s Hs), (ForkState_valid s1 Hs1).
fold s1 s2. split; [done|]. split; [done|]. split; [done|]. split; [done|].
simpl. apply children_differ. exact Hs1.
Qed.
End EngineFacts.

(** * Properties of the weight table *)

Section TableFacts.

Lemma least_entry_Some p l e :
  least_entry p l = Some e ->
  e ∈ l /\ p e.1 = true /\ forall e', e' ∈ l -> p e'.1 = true -> e.1 <= e'.1.
Proof.
  revert e. induction l as [|a l IH]; intros e; simpl; [done|].
  destruct (p a.1) eqn:Hpa.
  - destruct (least_entry p l) as [e0|] eqn:Hl.
    + destruct (IH e0 eq_refl) as (Hin & Hp & Hmin).
      unfold lower_entry. intros [= <-].
      destruct (a.1 <=? e0.1) eqn:Hle.
      * apply Z.leb_le in Hle. split; [left|split; [done|]].
        intros e' [->|Hin']%elem_of_cons Hp'; [lia|].
        specialize (Hmin e' Hin' Hp'). lia.
      * apply Z.leb_gt in Hle. split; [by right|split; [done|]].
        intros e' [->|Hin']%elem_of_cons Hp'; [lia|]. by apply Hmin.
    + intros [= <-]. split; [left|split; [done|]].
      intros e' [->|Hin']%elem_of_cons Hp'; [lia|].
      exfalso. clear IH. induction l as [|b l IHl]; [by apply elem_of_nil in Hin'|].
      simpl in Hl. destruct (p b.1) eqn:Hpb; [done|].
      apply elem_of_cons in Hin' as [->|Hin']; [congruence|]. by apply IHl.
  - intros He. destruct (IH e He) as (Hin & Hp & Hmin).
    split; [by right|split; [done|]].
    intros e' [->|Hin']%elem_of_cons Hp'; [congruence|]. by apply Hmin.
Qed.

Lemma least_entry_None p l e :
  least_entry p l = None -> e ∈ l -> p e.1 = false.
Proof.
  induction l as [|a l IH]; simpl; intros Hl Hin; [by apply elem_of_nil in Hin|].
  destruct (p a.1) eqn:Hpa; [done|].
  apply elem_of_cons in Hin as [->|Hin]; [done|]. by apply IH.
Qed.

Lemma greatest_entry_Some p l e :
  greatest_entry p l = Some e ->
  e ∈ l /\ p e.1 = true /\ forall e', e' ∈ l -> p e'.1 = true -> e'.1 <= e.1.
Proof.
  revert e. induction l as [|a l IH]; intros e; simpl; [done|].
  destruct (p a.1) eqn:Hpa.
  - destruct (greatest_entry p l) as [e0|] eqn:Hl.
    + destruct (IH e0 eq_refl) as (Hin & Hp & Hmax).
      unfold upper_entry. intros [= <-].
      destruct (e0.1 <=? a.1) eqn:Hle.
      * apply Z.leb_le in Hle. split; [left|split; [done|]].
        intros e' [->|Hin']%elem_of_cons Hp'; [lia|].
        specialize (Hmax e' Hin' Hp'). lia.
      * apply Z.leb_gt in Hle. split; [by right|split; [done|]].
        intros e' [->|Hin']%elem_of_cons Hp'; [lia|]. by apply Hmax.
    + intros [= <-]. split; [left|split; [done|]].
      intros e' [->|Hin']%elem_of_cons Hp'; [lia|].
      exfalso. clear IH. induction l as [|b l IHl]; [by apply elem_of_nil in Hin'|].
      simpl in Hl. destruct (p b.1) eqn:Hpb; [done|].
      apply elem_of_cons in Hin' as [->|Hin']; [congruence|]. by apply IHl.
  - intros He. destruct (IH e He) as (Hin & Hp & Hmax).
    split; [by right|split; [done|]].
    intros e' [->|Hin']%elem_of_cons Hp'; [congruence|]. by apply Hmax.
Qed.

(** [lower_bound] returns an entry of the table, the one with the least key
    not below [k]. *)
Lemma lower_bound_Some (m : gmap Z RuleId) k k' v :
  lower_bound m k = Some (k', v) ->
  m !! k' = Some v /\ k <= k' /\
  forall k'' v'', m !! k'' = Some v'' -> k <= k'' -> k' <= k''.
Proof.
  unfold lower_bound. intros (Hin & Hp & Hmin)%least_entry_Some.
  simpl in *. apply elem_of_map_to_list in Hin. apply Z.leb_le in Hp.
  split; [done|split; [done|]]. intros k'' v'' Hk'' Hle.
  apply (Hmin (k'', v'')); [by apply elem_of_map_to_list|by apply Z.leb_le].
Qed.

(** [lower_bound] is [end()] exactly when every key is below [k]. *)
Lemma lower_bound_None (m : gmap Z RuleId) k k'' v :
  lower_bound m k = None -> m !! k'' = Some v -> k'' < k.
Proof.
  unfold lower_bound. intros Hl Hk.
  apply elem_of_map_to_list in Hk.
  apply (least_entry_None _ _ _ Hl) in Hk. simpl in Hk. by apply Z.leb_gt in Hk.
Qed.

Lemma lower_bound_at (m : gmap Z RuleId) k v :
  m !! k = Some v -> lower_bound m k = Some (k, v).
Proof.
  intros Hk. destruct (lower_bound m k) as [[k' v']|] eqn:Hl.
  - destruct (lower_bound_Some _ _ _ _ Hl) as (Hk' & Hle & Hmin).
    specialize (Hmin k v Hk ltac:(lia)).
    assert (k' = k) as -> by lia. congruence.
  - pose proof (lower_bound_None _ _ _ _ Hl Hk). lia.
Qed.

Lemma prev_entry_Some (m : gmap Z RuleId) k k' v :
  prev_entry m k = Some (k', v) ->
  m !! k' = Some v /\ k' < k /\
  forall k'' v'', m !! k'' = Some v'' -> k'' < k -> k'' <= k'.
Proof.
  unfold prev_entry. intros (Hin & Hp & Hmax)%greatest_entry_Some.
  simpl in *. apply elem_of_map_to_list in Hin. apply Z.ltb_lt in Hp.
  split; [done|split; [done|]]. intros k'' v'' Hk'' Hlt.
  apply (Hmax (k'', v'')); [by apply elem_of_map_to_list|by apply Z.ltb_lt].
Qed.

End TableFacts.

(** * Properties of RandomScheduleMutate *)

Section MutateFacts.
Context {IRSchedule Cost RandState : Type}.
Context {collab : Collaborators IRSchedule Cost RandState}.

Local Abbreviation State := (SearchState IRSchedule Cost).
Local Abbreviation weight r ir := (NumberApplicable (rule r) ir).

Implicit Types (ir : IRSchedule) (t : gmap Z RuleId).

(** The rules entered into the table were scanned and did not answer
    [kCannotApply]. *)
Lemma entered_rules_spec ir todo r :
  r ∈ entered_rules ir todo -> r ∈ todo /\ Init (rule r) ir <> kCannotApply.
Proof.
  induction todo as [|a todo IH]; simpl; [by intros ?%elem_of_nil|].
  destruct (decide (Init (rule a) ir = kCannotApply)) as [Ha|Ha].
  - intros [? ?]%IH. split; [by right|done].
  - destruct (decide (Init (rule a) ir = kApplyAndSkipAllRules)).
    + intros ->%list_elem_of_singleton. split; [left|done].
    + intros [->|[? ?]%IH]%elem_of_cons; (split; [by constructor|done]).
Qed.

Lemma entered_rules_nil ir todo :
  (forall r, r ∈ todo -> Init (rule r) ir = kCannotApply) ->
  entered_rules ir todo = [].
Proof.
  induction todo as [|a todo IH]; simpl; [done|]. intros Hall.
  rewrite decide_True by (apply Hall; left).
  apply IH. intros r Hr. apply Hall. by right.
Qed.

(** The loop builds the table of the entered rules. *)
Lemma scan_rules_table ir done todo t W rules' t' W' :
  scan_rules ir done todo t W = Ok (rules', t', W') ->
  weight_table ir (entered_rules ir todo) t W = (t', W').
Proof.
  revert done t W. induction todo as [|a todo IH]; intros done t W; simpl.
  - by intros [= _ <- <-].
  - destruct (decide (Init (rule a) ir = kCannotApply)); [by apply IH|].
    destruct (int_range _); simpl; [|done].
    destruct (decide (Init (rule a) ir = kApplyAndSkipThisRule)) as [Hs|Hs].
    + rewrite decide_False by congruence. apply IH.
    + destruct (decide (Init (rule a) ir = kApplyAndSkipAllRules)).
      * by intros [= _ <- <-].
      * apply IH.
Qed.

(** Rules are only taken out of the vector. *)
Lemma scan_rules_sublist ir done todo t W rules' t' W' :
  scan_rules ir done todo t W = Ok (rules', t', W') ->
  rules' `sublist_of` done ++ todo.
Proof.
  revert done t W. induction todo as [|a todo IH]; intros done t W; simpl.
  - intros [= <- _ _]. by rewrite app_nil_r.
  - destruct (decide (Init (rule a) ir = kCannotApply)).
    { intros H%IH. by rewrite <- app_assoc in H. }
    destruct (int_range _); simpl; [|done].
    destruct (decide (Init (rule a) ir = kApplyAndSkipThisRule)).
    { intros H%IH. etrans; [exact H|].
      apply sublist_app; [done|]. by apply sublist_cons. }
    destruct (decide (Init (rule a) ir = kApplyAndSkipAllRules)).
    { intros [= <- _ _]. apply sublist_nil_l. }
    intros H%IH. by rewrite <- app_assoc in H.
Qed.

(** Without a skip signal the vector is left as it was. *)
Lemma scan_rules_keep ir done todo t W rules' t' W' :
  (forall r, r ∈ todo -> Init (rule r) ir <> kApplyAndSkipThisRule /\
                         Init (rule r) ir <> kApplyAndSkipAllRules) ->
  scan_rules ir done todo t W = Ok (rules', t', W') ->
  rules' = done ++ todo.
Proof.
  revert done t W. induction todo as [|a todo IH]; intros done t W Hall; simpl.
  - intros [= <- _ _]. by rewrite app_nil_r.
  - assert (forall r, r ∈ todo ->
              Init (rule r) ir <> kApplyAndSkipThisRule /\
              Init (rule r) ir <> kApplyAndSkipAllRules) as Hall'
      by (intros r Hr; apply Hall; by right).
    destruct (Hall a ltac:(left)) as [H1 H2].
    destruct (decide (Init (rule a) ir = kCannotApply)).
    { intros H%IH; [|done]. by rewrite <- app_assoc in H. }
    destruct (int_range _); simpl; [|done].
    rewrite !decide_False by done.
    intros H%IH; [|done]. by rewrite <- app_assoc in H.
Qed.

(** When no rule can apply nothing is entered and nothing is removed. *)
Lemma scan_rules_cannot ir done todo t W :
  (forall r, r ∈ todo -> Init (rule r) ir = kCannotApply) ->
  scan_rules ir done todo t W = Ok (done ++ todo, t, W).
Proof.
  revert done. induction todo as [|a todo IH]; intros done Hall; simpl.
  - by rewrite app_nil_r.
  - rewrite decide_True by (apply Hall; left).
    rewrite IH by (intros r Hr; apply Hall; by right).
    by rewrite <- app_assoc.
Qed.

(** The total weight is the sum of the weights entered. *)
Lemma weight_table_total ir entered t W :
  (weight_table ir entered t W).2 = W + total_weight ir entered.
Proof.
  revert t W. induction entered as [|a l IH]; intros t W; simpl; [lia|].
  rewrite IH. unfold total_weight. lia.
Qed.

Lemma total_weight_cons ir a l :
  total_weight ir (a :: l) = weight a ir + total_weight ir l.
Proof. done. Qed.

Lemma total_weight_pos ir entered :
  0 < total_weight ir entered -> exists r, r ∈ entered /\ 1 <= weight r ir.
Proof.
  induction entered as [|a l IH]; simpl; [lia|]. intros Hpos.
  destruct (decide (1 <= weight a ir)) as [Ha|Ha].
  - exists a. split; [left|done].
  - destruct IH as (r & Hr & Hw); [lia|]. exists r. split; [by right|done].
Qed.

Lemma total_weight_zero ir entered :
  (forall r, r ∈ entered -> weight r ir = 0) -> total_weight ir entered = 0.
Proof.
  induction entered as [|a l IH]; simpl; [done|]. intros Hall.
  rewrite (Hall a) by left. rewrite IH; [done|].
  intros r Hr. apply Hall. by right.
Qed.

(** Entering a rule never empties the table. *)
Lemma weight_table_nonempty ir entered t W :
  entered <> [] \/ t <> ∅ -> (weight_table ir entered t W).1 <> ∅.
Proof.
  revert t W. induction entered as [|a l IH]; intros t W; simpl.
  - by intros [?|?].
  - intros _. apply IH. right. apply insert_non_empty.
Qed.

Lemma weight_table_empty ir t W : (weight_table ir [] t W).1 = t.
Proof. done. Qed.

(** Every entry of the table is an entry of the initial table or one of the
    rules entered. *)
Lemma weight_table_values ir entered t W k r :
  (weight_table ir entered t W).1 !! k = Some r ->
  t !! k = Some r \/ r ∈ entered.
Proof.
  revert t W. induction entered as [|a l IH]; intros t W; simpl; [by left|].
  intros [H|H]%IH; [|right; by right].
  destruct (decide (W = k)) as [->|Hne].
  - rewrite lookup_insert_eq in H. injection H as ->. right; left.
  - rewrite lookup_insert_ne in H by done. by left.
Qed.

Lemma table_inv_empty ir : table_inv ir ∅ 0.
Proof. split; [done|]. intros k r. by rewrite lookup_empty. Qed.

Lemma weight_table_inv ir entered t W :
  (forall r, r ∈ entered -> 0 <= weight r ir) ->
  table_inv ir t W ->
  table_inv ir (weight_table ir entered t W).1 (weight_table ir entered t W).2.
Proof.
  revert t W. induction entered as [|a l IH]; intros t W Hnn Hinv; simpl; [done|].
  apply IH; [intros r Hr; apply Hnn; by right|].
  pose proof (Hnn a ltac:(left)) as Ha.
  destruct Hinv as [HW Hinv]. split; [lia|].
  intros k r. destruct (decide (W = k)) as [->|Hne].
  - rewrite lookup_insert_eq. intros [= <-]. split; [lia|].
    intros Hlt. split; [lia|]. by left.
  - rewrite lookup_insert_ne by done. intros Hk.
    destruct (Hinv k r Hk) as [Hle Hspan]. split; [lia|].
    intros _. destruct Hspan as [Hpos Hnext]; [lia|]. split; [done|].
    right. destruct Hnext as [->|Hnext].
    + rewrite lookup_insert_eq. by eexists.
    + destruct (decide (W = k + weight r ir)) as [->|Hne'].
      * rewrite lookup_insert_eq. by eexists.
      * by rewrite lookup_insert_ne.
Qed.

(** On a table of that shape, whenever sampling is defined it yields an
    entry of the table and an index below that rule's weight. *)
Lemma sample_rule_ok ir t W rnd r index :
  table_inv ir t W -> 0 <= rnd ->
  sample_rule t W rnd = Ok (r, index) ->
  (exists k, t !! k = Some r) /\ 0 <= index < weight r ir.
Proof.
  intros [HW Hinv] Hrnd. unfold sample_rule.
  destruct (decide (W = 0)) as [|HW0]; [done|].
  pose proof (Z.rem_bound_pos rnd W Hrnd ltac:(lia)) as Hs.
  set (s := Z.rem rnd W) in *. clearbody s.
  destruct (lower_bound t s) as [[k v]|] eqn:Hlb; [|done].
  destruct (lower_bound_Some _ _ _ _ Hlb) as (Hk & Hle & Hmin).
  destruct (s <? k) eqn:Hlt.
  - apply Z.ltb_lt in Hlt.
    destruct (prev_entry t k) as [[k' v']|] eqn:Hprev; [|done].
    destruct (prev_entry_Some _ _ _ _ Hprev) as (Hk' & Hlt' & Hmax).
    intros [= <- <-]. split; [by eexists|].
    assert (k' < s) as Hk's.
    { destruct (decide (s <= k')); [|lia].
      specialize (Hmin k' v' Hk' ltac:(lia)). lia. }
    destruct (Hinv k' v' Hk') as [_ Hspan].
    destruct Hspan as [Hpos Hnext]; [lia|]. split; [lia|].
    destruct Hnext as [Hend|[v'' Hnext]]; [lia|].
    destruct (decide (k' + weight v' ir <= s)) as [Hin|]; [|lia].
    destruct (decide (k' + weight v' ir < k)) as [Hbelow|Habove].
    + specialize (Hmax _ _ Hnext Hbelow). lia.
    + specialize (Hmin _ _ Hnext ltac:(lia)). lia.
  - apply Z.ltb_ge in Hlt. assert (k = s) as -> by lia.
    intros [= <- <-]. split; [by eexists|].
    destruct (Hinv s v Hk) as [_ Hspan].
    destruct Hspan as [Hpos _]; lia.
Qed.

Lemma weight_table_app ir l1 l2 t W :
  weight_table ir (l1 ++ l2) t W =
  weight_table ir l2 (weight_table ir l1 t W).1 (weight_table ir l1 t W).2.
Proof.
  revert t W. induction l1 as [|a l1 IH]; intros t W; simpl; [done|]. apply IH.
Qed.

(** An entry stays in the table unless a later rule takes its key. *)
Lemma weight_table_lookup_in ir l t W k x :
  t !! k = Some x ->
  exists y, (weight_table ir l t W).1 !! k = Some y /\ (y = x \/ y ∈ l).
Proof.
  revert t W x. induction l as [|a l IH]; intros t W x Hk; simpl.
  - exists x. by split; [|left].
  - destruct (decide (W = k)) as [->|Hne].
    + destruct (IH (<[k := a]> t) (k + weight a ir) a) as (y & Hy & Hin).
      { by rewrite lookup_insert_eq. }
      exists y. split; [done|]. right. destruct Hin as [->|Hin]; [left|by right].
    + destruct (IH (<[W := a]> t) (W + weight a ir) x) as (y & Hy & Hin).
      { by rewrite lookup_insert_ne. }
      exists y. split; [done|]. destruct Hin as [->|Hin]; [by left|right; by right].
Qed.

(** As long as the weights are counts whose sum fits an [int], the
    additions of the loop stay in range and the loop completes. *)
Lemma scan_rules_defined ir done todo t W :
  (forall r, r ∈ entered_rules ir todo -> 0 <= weight r ir) ->
  - 2 ^ 31 <= W -> W + total_weight ir (entered_rules ir todo) < 2 ^ 31 ->
  exists rules',
    scan_rules ir done todo t W =
    Ok (rules', (weight_table ir (entered_rules ir todo) t W).1,
        (weight_table ir (entered_rules ir todo) t W).2).
Proof.
  revert done t W. induction todo as [|a todo IH]; intros done t W Hw HW Hsum.
  - by eexists.
  - simpl scan_rules. simpl entered_rules in *.
    destruct (decide (Init (rule a) ir = kCannotApply)); [by apply IH|].
    assert (0 <= weight a ir) as Ha.
    { apply Hw. destruct (decide (_ = kApplyAndSkipAllRules)); left. }
    destruct (decide (Init (rule a) ir = kApplyAndSkipAllRules)) as [Hall|Hall].
    + simpl in Hsum.
      assert (int_range (W + weight a ir) = true) as ->.
      { unfold int_range. apply andb_true_iff.
        split; [apply Z.leb_le|apply Z.ltb_lt]; lia. }
      simpl. rewrite decide_False by congruence. by eexists.
    + assert (forall r, r ∈ entered_rules ir todo -> 0 <= weight r ir) as Hw'
        by (intros r Hr; apply Hw; by right).
      assert (0 <= total_weight ir (entered_rules ir todo)) as Hnn.
      { clear -Hw'. induction (entered_rules ir todo) as [|b l IHl]; simpl; [done|].
        pose proof (Hw' b ltac:(left)).
        assert (0 <= total_weight ir l); [|unfold total_weight in *; lia].
        apply IHl. intros r Hr. apply Hw'. by right. }
      simpl in Hsum. fold (total_weight ir (entered_rules ir todo)) in Hsum.
      assert (int_range (W + weight a ir) = true) as ->.
      { unfold int_range. apply andb_true_iff.
        split; [apply Z.leb_le|apply Z.ltb_lt]; lia. }
      simpl.
      destruct (decide (Init (rule a) ir = kApplyAndSkipThisRule));
        apply IH; solve [done|lia].
Qed.

Lemma entered_rules_length ir todo :
  (length (entered_rules ir todo) <= length todo)%nat.
Proof.
  induction todo as [|a todo IH]; simpl; [done|].
  destruct (decide _); [lia|]. destruct (decide _); simpl; lia.
Qed.

Lemma total_weight_le_length ir l :
  (forall r, r ∈ l -> weight r ir <= 1) ->
  total_weight ir l <= Z.of_nat (length l).
Proof.
  induction l as [|a l IH]; intros Hw; simpl; [done|].
  pose proof (Hw a ltac:(left)).
  assert (total_weight ir l <= Z.of_nat (length l)); [|unfold total_weight in *; lia].
  apply IH. intros r Hr. apply Hw. by right.
Qed.

End MutateFacts.

(** * RandomScheduleMutate *)

Section MutateProperties.
Context {IRSchedule Cost RandState : Type}.
Context {collab : Collaborators IRSchedule Cost RandState}.

Local Abbreviation State := (SearchState IRSchedule Cost).
Local Abbreviation weight r ir := (NumberApplicable (rule r) ir).

(** What a call returns, in terms of the table of the entered rules. *)
Lemma RandomScheduleMutate_unfold (state : State) (g : RandState) ret g' :
  RandomScheduleMutate state g = Ok (ret, g') ->
  let ir := ir_schedule state in
  let entered := entered_rules ir (applicable_rules state) in
  exists rules',
    scan_rules ir [] (applicable_rules state) ∅ 0 =
      Ok (rules', (weight_table ir entered ∅ 0).1,
          (weight_table ir entered ∅ 0).2) /\
    ((entered = [] /\ g' = g /\
      ret = mkSearchState ir (predicted_cost state) rules') \/
     (entered <> [] /\ g' = (rand g).2 /\
      exists sample index,
        sample_rule (weight_table ir entered ∅ 0).1
                    (weight_table ir entered ∅ 0).2 (rand g).1
          = Ok (sample, index) /\
        ret = mkSearchState (Apply (rule sample) ir index)
                            (predicted_cost state) rules')).
Proof.
  intros Hrun ir entered. unfold RandomScheduleMutate in Hrun.
  fold ir in Hrun.
  destruct (scan_rules ir [] (applicable_rules state) ∅ 0)
    as [[[rules' t] W]| | |] eqn:Hscan; simpl in Hrun; try done.
  pose proof (scan_rules_table _ _ _ _ _ _ _ _ Hscan) as Htab.
  fold entered in Htab. rewrite Htab. simpl.
  exists rules'. split; [done|].
  destruct (decide (t = ∅)) as [->|Hne].
  - injection Hrun as <- <-. left. split; [|done].
    destruct entered as [|a l] eqn:He; [done|].
    exfalso. eapply (weight_table_nonempty ir (a :: l) ∅ 0); [by left|].
    by rewrite Htab.
  - right. split.
    { intros He. rewrite He in Htab. simpl in Htab. by injection Htab as <- _. }
    destruct (rand g) as [r g1]. simpl.
    destruct (sample_rule t W r) as [[sample index]| | |]; simpl in Hrun; try done.
    injection Hrun as <- <-. split; [done|]. by exists sample, index.
Qed.

Lemma RandomScheduleMutate_sublist (state : State) (g : RandState) ret g' :
  RandomScheduleMutate state g = Ok (ret, g') ->
  applicable_rules ret `sublist_of` applicable_rules state.
Proof.
  intros Hrun.
  destruct (RandomScheduleMutate_unfold _ _ _ _ Hrun) as (rules' & Hscan & Hret).
  assert (applicable_rules ret = rules') as ->.
  { destruct Hret as [(_ & _ & ->)|(_ & _ & s & i & _ & ->)]; done. }
  by apply scan_rules_sublist in Hscan.
Qed.

(** Whenever a call samples and returns, the rule it applied is one of the
    input's rules whose [Init] did not answer [kCannotApply], the index it
    passed is below that rule's count, and the total weight is the sum of the
    weights entered. *)
Lemma RandomScheduleMutate_selects (state : State) (g : RandState) ret g' :
  let ir := ir_schedule state in
  let entered := entered_rules ir (applicable_rules state) in
  (forall r, r ∈ entered -> 0 <= weight r ir) -> rand_nonneg ->
  entered <> [] ->
  RandomScheduleMutate state g = Ok (ret, g') ->
  (weight_table ir entered ∅ 0).2 = total_weight ir entered /\
  exists sample index,
    sample ∈ applicable_rules state /\
    Init (rule sample) ir <> kCannotApply /\
    0 <= index < weight sample ir /\
    ir_schedule ret = Apply (rule sample) ir index.
Proof.
  intros ir entered Hnn Hrand Hne Hrun.
  split; [by rewrite weight_table_total|].
  destruct (RandomScheduleMutate_unfold _ _ _ _ Hrun)
    as (rules' & _ & [(He & _)|(_ & _ & sample & index & Hs & ->)]); [done|].
  fold ir entered in Hs.
  destruct (sample_rule_ok ir _ _ _ _ _
              (weight_table_inv ir entered ∅ 0 Hnn (table_inv_empty ir))
              (Hrand g) Hs) as [[k Hk] Hidx].
  apply weight_table_values in Hk as [Hk|Hk]; [by rewrite lookup_empty in Hk|].
  apply entered_rules_spec in Hk as [Hin Hinit].
  by exists sample, index.
Qed.

(** C6: the applicable rules of the state RandomScheduleMutate returns are a
    subsequence of those of its input, hence of any registry the input's
    rules are a subsequence of; without a skip signal they are unchanged. *)
Theorem RandomScheduleMutate_applicable_rules_sublist
    (registry : list RuleId) (state : State) (g : RandState) ret g' :
  RandomScheduleMutate state g = Ok (ret, g') ->
  applicable_rules ret `sublist_of` applicable_rules state /\
  (applicable_rules state `sublist_of` registry ->
   applicable_rules ret `sublist_of` registry) /\
  ((forall r, r ∈ applicable_rules state ->
      Init (rule r) (ir_schedule state) <> kApplyAndSkipThisRule /\
      Init (rule r) (ir_schedule state) <> kApplyAndSkipAllRules) ->
   applicable_rules ret = applicable_rules state).
Proof.
  intros Hrun.
  pose proof (RandomScheduleMutate_sublist _ _ _ _ Hrun) as Hsub.
  split; [done|split].
  - intros Hreg. by etrans.
  - intros Hkeep.
    destruct (RandomScheduleMutate_unfold _ _ _ _ Hrun) as (rules' & Hscan & Hret).
    assert (applicable_rules ret = rules') as ->.
    { destruct Hret as [(_ & _ & ->)|(_ & _ & s & i & _ & ->)]; done. }
    by apply (scan_rules_keep _ _ _ _ _ _ _ _ Hkeep) in Hscan.
Qed.

(** C7: when every applicable rule answers [kCannotApply], the state is
    returned as it is, without sampling. *)
Theorem RandomScheduleMutate_no_applicable_rule (state : State) (g : RandState) :
  (forall r, r ∈ applicable_rules state ->
     Init (rule r) (ir_schedule state) = kCannotApply) ->
  RandomScheduleMutate state g = Ok (state, g).
Proof.
  intros Hall. unfold RandomScheduleMutate.
  rewrite (scan_rules_cannot _ [] _ ∅ 0 Hall). simpl.
  rewrite decide_True by done. by destruct state.
Qed.

(** C9: sampling needs a positive total weight, which only a rule with at
    least one applicable position provides; when every entered rule reports
    zero positions the table is not empty, the total is zero and the modulo
    is undefined; a zero-weight entry is overwritten by the next rule entered
    and is never the rule sampled. *)
Theorem RandomScheduleMutate_zero_weight (state : State) (g : RandState) :
  let ir := ir_schedule state in
  let entered := entered_rules ir (applicable_rules state) in
  let table := (weight_table ir entered ∅ 0).1 in
  let cur_weight := (weight_table ir entered ∅ 0).2 in
  (forall rules' t W,
     scan_rules ir [] (applicable_rules state) ∅ 0 = Ok (rules', t, W) ->
     t = table /\ W = cur_weight) /\
  (0 < cur_weight -> exists r, r ∈ entered /\ 1 <= weight r ir) /\
  (entered <> [] -> (forall r, r ∈ entered -> weight r ir = 0) ->
   table <> ∅ /\ cur_weight = 0 /\
   RandomScheduleMutate state g = Undefined ModuloByZero) /\
  (forall pre r r' post,
     entered = pre ++ r :: r' :: post -> weight r ir = 0 ->
     (weight_table ir (pre ++ [r]) ∅ 0).1 !! total_weight ir pre = Some r /\
     (weight_table ir (pre ++ [r; r']) ∅ 0).1 !! total_weight ir pre = Some r' /\
     exists r'', r'' ∈ r' :: post /\ table !! total_weight ir pre = Some r'') /\
  ((forall r, r ∈ entered -> 0 <= weight r ir) ->
   forall rnd sample index,
     0 <= rnd -> sample_rule table cur_weight rnd = Ok (sample, index) ->
     sample ∈ entered /\ weight sample ir <> 0).
Proof.
  intros ir entered table cur_weight. repeat split.
  - apply scan_rules_table in H. fold entered in H.
    unfold table. by rewrite H.
  - apply scan_rules_table in H. fold entered in H.
    unfold cur_weight. by rewrite H.
  - unfold cur_weight. rewrite weight_table_total. intros Hpos.
    apply total_weight_pos. lia.
  - by apply weight_table_nonempty; left.
  - unfold cur_weight. rewrite weight_table_total, total_weight_zero; done.
  - destruct (scan_rules_defined ir [] (applicable_rules state) ∅ 0)
      as [rules' Hscan]; [| done | |].
    { intros r Hr. fold entered in Hr. by rewrite (H0 r Hr). }
    { fold entered. by rewrite total_weight_zero. }
    fold entered in Hscan. unfold RandomScheduleMutate. fold ir.
    rewrite Hscan. simpl. fold table.
    rewrite decide_False by (by apply weight_table_nonempty; left).
    destruct (rand g) as [r g1]. unfold sample_rule.
    rewrite weight_table_total, total_weight_zero by done.
    by rewrite decide_True.
  - rewrite weight_table_app. simpl. rewrite weight_table_total.
    by rewrite lookup_insert_eq.
  - rewrite weight_table_app. simpl. rewrite weight_table_total.
    rewrite H0, Z.add_0_r. by rewrite lookup_insert_eq.
  - unfold table. rewrite H, weight_table_app. simpl.
    rewrite weight_table_total, H0, Z.add_0_r. simpl.
    destruct (weight_table_lookup_in ir post
                (<[total_weight ir pre := r']>
                   (<[total_weight ir pre := r]> (weight_table ir pre ∅ 0).1))
                (total_weight ir pre + weight r' ir)
                (total_weight ir pre) r') as (y & Hy & Hin).
    { by rewrite lookup_insert_eq. }
    exists y. split; [|done]. destruct Hin as [->|Hin]; [left|by right].
  - destruct (sample_rule_ok ir table cur_weight rnd sample index)
      as [[k Hk] Hidx]; [|done..|].
    { apply weight_table_inv; [done|apply table_inv_empty]. }
    apply weight_table_values in Hk as [Hk|Hk]; [by rewrite lookup_empty in Hk|done].
  - destruct (sample_rule_ok ir table cur_weight rnd sample index)
      as [_ Hidx]; [|done..|lia].
    apply weight_table_inv; [done|apply table_inv_empty].
Qed.

End MutateProperties.

(** * GetRandomInitialSketch *)

Section SketchProperties.
Context {IRSchedule Cost RandState : Type}.
Context {collab : Collaborators IRSchedule Cost RandState}.

Local Abbreviation State := (SearchState IRSchedule Cost).
Local Abbreviation weight r ir := (NumberApplicable (rule r) ir).

Lemma RandomScheduleMutate_preserves P (state : State) g ret g' :
  preserved P -> P (ir_schedule state) ->
  RandomScheduleMutate state g = Ok (ret, g') -> P (ir_schedule ret).
Proof.
  intros HP Hst Hrun.
  destruct (RandomScheduleMutate_unfold _ _ _ _ Hrun) as (rules' & _ & Hret).
  destruct Hret as [(_ & _ & ->)|(_ & _ & s & i & _ & ->)]; simpl; [done|].
  by apply HP.
Qed.

Lemma mutate_loop_spec P registry n (state : State) g ret g' :
  preserved P -> P (ir_schedule state) ->
  applicable_rules state `sublist_of` registry ->
  mutate_loop n state g = Ok (ret, g') ->
  applicable_rules ret `sublist_of` registry /\ P (ir_schedule ret).
Proof.
  intros HP. revert state g. induction n as [|n IH]; intros state g Hst Hreg; simpl.
  - by intros [= <- <-].
  - destruct (RandomScheduleMutate state g) as [[st1 g1]| | |] eqn:Hrun;
      simpl; try done.
    pose proof (RandomScheduleMutate_preserves P _ _ _ _ HP Hst Hrun) as HP1.
    pose proof (RandomScheduleMutate_sublist _ _ _ _ Hrun) as Hsub.
    assert (applicable_rules st1 `sublist_of` registry) by (by etrans).
    destruct (decide (applicable_rules st1 = [])); [by intros [= <- <-]|].
    by apply IH.
Qed.

Lemma sketch_loop_spec P (ss : SearchSpace IRSchedule) n result g res g' :
  preserved P -> P (init_schedule ss) ->
  sketch_loop ss n result g = Ok (res, g') ->
  length res = (length result + n)%nat /\
  (Forall (fun st : State =>
             applicable_rules st `sublist_of` sketch_rules_ ss /\
             P (ir_schedule st)) result ->
   Forall (fun st : State =>
             applicable_rules st `sublist_of` sketch_rules_ ss /\
             P (ir_schedule st)) res).
Proof.
  intros HP Hinit. revert result g. induction n as [|n IH]; intros result g; simpl.
  - intros [= <- <-]. split; [lia|done].
  - destruct (mutate_loop _ _ g) as [[st1 g1]| | |] eqn:Hm; simpl; try done.
    apply (mutate_loop_spec P (sketch_rules_ ss)) in Hm; [|done..].
    intros [Hlen Hall]%IH. rewrite length_app in Hlen. simpl in Hlen.
    split; [lia|]. intros Hres. apply Hall.
    apply Forall_app. split; [done|]. by apply Forall_singleton.
Qed.

(** With unit weights the keys of the table are consecutive. *)
Lemma unit_table_keys (ir : IRSchedule) l (t : gmap Z RuleId) W k :
  (forall r, r ∈ l -> weight r ir = 1) ->
  W <= k < W + Z.of_nat (length l) ->
  is_Some ((weight_table ir l t W).1 !! k).
Proof.
  revert t W. induction l as [|a l IH]; intros t W Hw Hk; simpl in *; [lia|].
  destruct (decide (k = W)) as [->|Hne].
  - destruct (weight_table_lookup_in ir l (<[W := a]> t) (W + weight a ir) W a)
      as (y & Hy & _); [by rewrite lookup_insert_eq|]. by eexists.
  - apply IH; [intros r Hr; apply Hw; by right|].
    rewrite (Hw a) by left. lia.
Qed.

(** With unit weights every sample index is a key of the table, and a call
    returns. *)
Lemma RandomScheduleMutate_unit_total (state : State) g :
  unit_weights -> rand_nonneg ->
  Z.of_nat (length (applicable_rules state)) < 2 ^ 31 ->
  exists ret g', RandomScheduleMutate state g = Ok (ret, g').
Proof.
  intros Hunit Hrand Hlen.
  set (ir := ir_schedule state).
  set (entered := entered_rules ir (applicable_rules state)).
  assert (forall r, r ∈ entered -> weight r ir = 1) as Hw.
  { intros r [_ Hr]%entered_rules_spec. by apply Hunit. }
  assert (total_weight ir entered = Z.of_nat (length entered)) as Htot.
  { clearbody entered. clear -Hw. induction entered as [|a l IH]; [done|].
    rewrite total_weight_cons, (Hw a) by left. rewrite IH; [simpl; lia|].
    intros r Hr. apply Hw. by right. }
  pose proof (entered_rules_length ir (applicable_rules state)) as Hel.
  fold entered in Hel.
  destruct (scan_rules_defined ir [] (applicable_rules state) ∅ 0)
    as [rules' Hscan]; [|lia|fold entered; lia|].
  { intros r Hr. fold entered in Hr. rewrite (Hw r Hr). lia. }
  fold entered in Hscan. unfold RandomScheduleMutate. fold ir. rewrite Hscan.
  simpl. destruct (decide (_ = ∅)); [by eexists _, _|].
  pose proof (Hrand g) as Hr. destruct (rand g) as [r g1]. simpl in Hr.
  unfold sample_rule. rewrite weight_table_total, Htot, Z.add_0_l.
  destruct entered as [|a l] eqn:He; [done|].
  rewrite decide_False by (simpl; lia).
  pose proof (Z.rem_bound_pos r (Z.of_nat (length (a :: l))) Hr
                ltac:(simpl; lia)) as Hs.
  destruct (unit_table_keys ir (a :: l) ∅ 0 (Z.rem r (Z.of_nat (length (a :: l)))))
    as [v Hv]; [done|lia|].
  rewrite (lower_bound_at _ _ _ Hv). rewrite Z.ltb_irrefl. simpl.
  by eexists _, _.
Qed.

Lemma mutate_loop_unit_total n (state : State) g :
  unit_weights -> rand_nonneg ->
  Z.of_nat (length (applicable_rules state)) < 2 ^ 31 ->
  exists ret g', mutate_loop n state g = Ok (ret, g').
Proof.
  intros Hunit Hrand. revert state g.
  induction n as [|n IH]; intros state g Hlen; simpl; [by eexists _, _|].
  destruct (RandomScheduleMutate_unit_total state g) as (st1 & g1 & Hrun); [done..|].
  rewrite Hrun. simpl.
  destruct (decide (applicable_rules st1 = [])); [by eexists _, _|].
  apply IH.
  pose proof (RandomScheduleMutate_sublist _ _ _ _ Hrun) as Hsub.
  apply sublist_length in Hsub. lia.
Qed.

Lemma sketch_loop_unit_total (ss : SearchSpace IRSchedule) n result g :
  unit_weights -> rand_nonneg ->
  Z.of_nat (length (sketch_rules_ ss)) < 2 ^ 31 ->
  exists res g', sketch_loop ss n result g = Ok (res, g').
Proof.
  intros Hunit Hrand Hlen. revert result g.
  induction n as [|n IH]; intros result g; simpl; [by eexists _, _|].
  destruct (mutate_loop_unit_total
              (Z.to_nat (init_sketch_random_depth_ ss))
              (mkSearchState (init_schedule ss) NOT_INIT_COST (sketch_rules_ ss)) g)
    as (st1 & g1 & Hm); [done..|].
  rewrite Hm. simpl. apply IH.
Qed.

(** C5: whenever GetRandomInitialSketch(5) returns, it returns
    exactly five states whose applicable rules are a subsequence of the
    registry and whose programs keep every property the initial program has
    and the rewrites preserve (being non-empty, for one); with a registry of
    four rules of unit weight it does return. The only source of randomness
    on this path is [rand()]: two runs that start from the same state of
    [rand()] return the same result. *)
Theorem GetRandomInitialSketch_five
    (ss : SearchSpace IRSchedule) (g : RandState) (P : IRSchedule -> Prop) :
  P (init_schedule ss) -> preserved P ->
  (forall res g',
     GetRandomInitialSketch ss 5 g = Ok (res, g') ->
     length res = 5%nat /\
     Forall (fun st : State =>
               applicable_rules st `sublist_of` sketch_rules_ ss /\
               P (ir_schedule st)) res) /\
  (length (sketch_rules_ ss) = 4%nat -> unit_weights -> rand_nonneg ->
   exists res g', GetRandomInitialSketch ss 5 g = Ok (res, g')) /\
  (forall g2, g2 = g ->
     GetRandomInitialSketch ss 5 g2 = GetRandomInitialSketch ss 5 g).
Proof.
  intros Hinit HP. split; [|split; [|by intros g2 ->]].
  - intros res g' Hrun. unfold GetRandomInitialSketch in Hrun.
    apply (sketch_loop_spec P) in Hrun as [Hlen Hall]; [|done..].
    split; [done|]. by apply Hall.
  - intros Hfour Hunit Hrand. apply sketch_loop_unit_total; [done..|].
    rewrite Hfour. done.
Qed.

End SketchProperties.

(** * CollectStateTransfer and the pruned sketch generators *)

Section TransferFacts.
Context {IRSchedule Cost RandState : Type}.
Context {collab : Collaborators IRSchedule Cost RandState}.

Local Abbreviation State := (SearchState IRSchedule Cost).

Implicit Types (host : HostEntropy) (layer cur next : list State).

(** With the traversal sampler and [steps = 0] the loop draws every rule
    once, in order, and stops. *)
Lemma transfer_loop_traversal host fuel x rules block pbr p step layer np :
  (length rules <= fuel)%nat ->
  transfer_loop host fuel (NextRule (TraversalRuleSampler x)) rules block 0
                pbr p step layer np
  = Ok (traverse_rules host block pbr p rules layer np).
Proof.
  revert fuel step layer np.
  induction rules as [|r rules IH]; intros fuel step layer np Hfuel.
  - destruct fuel; simpl; by rewrite orb_true_r.
  - destruct fuel as [|fuel]; [simpl in Hfuel; lia|].
    simpl in *. rewrite orb_true_r.
    destruct (transfer_layer host (rule r) block pbr p layer np)
      as [[kept new_states] np'].
    apply IH. lia.
Qed.

Lemma CollectStateTransfer_traversal host fuel state block rules pbr p np :
  (length rules <= fuel)%nat ->
  CollectStateTransfer host fuel state block (TraversalRuleSampler rules) 0
                       pbr p np
  = Ok (traverse_rules host block pbr p rules [state] np).
Proof. apply transfer_loop_traversal. Qed.

(** Pruning by rule draws nothing from the host. *)
Lemma transfer_layer_by_rule host r block p layer np :
  transfer_layer host r block true p layer np =
  ((transfer_layer host r block true p layer O).1, np).
Proof.
  induction layer as [|st layer IH]; simpl; [done|].
  destruct (negb (CheckBlockExist st block)).
  { rewrite IH. by destruct (transfer_layer host r block true p layer 0) as [[? ?] ?]. }
  destruct (decide (AnalyseApplyType r st block = kCannotApply)).
  { rewrite IH. by destruct (transfer_layer host r block true p layer 0) as [[? ?] ?]. }
  rewrite IH. by destruct (transfer_layer host r block true p layer 0) as [[? ?] ?].
Qed.

Lemma traverse_rules_by_rule host block p rules layer np :
  traverse_rules host block true p rules layer np =
  ((traverse_rules host block true p rules layer O).1, np).
Proof.
  revert layer. induction rules as [|r rules IH]; intros layer; simpl; [done|].
  rewrite transfer_layer_by_rule.
  pose proof (transfer_layer_by_rule host (rule r) block p layer O) as H0.
  destruct (transfer_layer host (rule r) block true p layer 0) as [[k n] n0].
  injection H0 as ->. simpl. apply IH.
Qed.

(** The loop over the current frontier, for an expansion that returns. *)
Lemma expand_states_flat_map
    (expand : State -> nat -> outcome (list State * nat))
    (f : State -> list State) cur next np :
  (forall st np, expand st np = Ok (f st, np)) ->
  expand_states expand cur next np = Ok (next ++ flat_map f cur, np).
Proof.
  intros Hex. revert next. induction cur as [|st cur IH]; intros next; simpl.
  - by rewrite app_nil_r.
  - rewrite Hex. simpl. rewrite IH. by rewrite <- app_assoc.
Qed.

Lemma rule_pruned_frontier_snoc host init_rules bs b cur :
  rule_pruned_frontier host init_rules (bs ++ [b]) cur =
  rule_pruned_expand host init_rules b (rule_pruned_frontier host init_rules bs cur).
Proof. unfold rule_pruned_frontier. by rewrite fold_left_app. Qed.

(** The buffers after the block loop of the rule-pruned generator: the
    second one holds the frontier before the last block was expanded. *)
Lemma rule_pruned_loop_traversal host fuel0 fuel x init_rules visited cur next :
  Forall (fun b => b <> ""%string) visited ->
  (length visited <= fuel)%nat -> (length init_rules <= fuel0)%nat ->
  rule_pruned_loop host fuel0 fuel (NextBlock (TraversalBlockSampler x)) visited
                   init_rules cur next
  = Ok (rule_pruned_frontier host init_rules visited cur,
        match visited with
        | [] => next
        | _ :: _ => rule_pruned_frontier host init_rules (removelast visited) cur
        end).
Proof.
  intros Hne Hfuel Hfuel0. revert fuel cur next Hfuel.
  induction visited as [|b visited IH]; intros fuel cur next Hfuel.
  - by destruct fuel.
  - destruct fuel as [|fuel]; [simpl in Hfuel; lia|].
    apply Forall_cons in Hne as [Hb Hne].
    cbn -[rule_pruned_expand_state removelast].
    rewrite decide_False by done.
    rewrite (expand_states_flat_map _
               (fun st => (traverse_rules host b true default_prune_probability
                                          init_rules [st] 0).1)).
    2:{ intros st np. unfold rule_pruned_expand_state, RuleSampler_Make.
        rewrite decide_True by done.
        simpl. rewrite CollectStateTransfer_traversal by done.
        by rewrite traverse_rules_by_rule. }
    simpl. rewrite IH by (done || (simpl in Hfuel; lia)).
    destruct visited; reflexivity.
Qed.

End TransferFacts.

Section PrunedSketchProperties.
Context {IRSchedule Cost RandState : Type}.
Context {collab : Collaborators IRSchedule Cost RandState}.

Local Abbreviation State := (SearchState IRSchedule Cost).

Implicit Types (host : HostEntropy) (layer cur next : list State).

(** A registry that leaves a rule after its last one is dropped is not
    empty. *)
Lemma removelast_nonempty {A : Type} (l : list A) : removelast l <> [] -> l <> [].
Proof. by destruct l. Qed.

(** The last frontier written, after one more iteration in front. *)
Lemma last_frontier_cons (F cur : list State)
    (earlier : list (Expansion IRSchedule Cost)) :
  default cur (last (F :: (exp_frontier <$> earlier)))
  = default F (last (exp_frontier <$> earlier)).
Proof.
  destruct (exp_frontier <$> earlier) as [|G l] eqn:Hl; [done|].
  change (last (F :: G :: l)) with (last (G :: l)).
  by destruct (last (G :: l)) eqn:Hlast;
    [|apply last_None in Hlast].
Qed.

(** The two buffers after the block loop of the random-pruned generator, by
    the record of its iterations: with no iteration the buffers are as they
    were; otherwise [*p_states_cur] is the frontier the last iteration
    wrote and [*p_states_next] the frontier it read, which is the one the
    iteration before it wrote, or the initial [cur]. *)
Lemma random_pruned_loop_history (ss : SearchSpace IRSchedule) host fuel0 fuel
    {S : Type} (next_block : S -> string * S) sampler init_rules total
    cur next ns np history ns' np' :
  random_pruned_history ss host fuel0 fuel next_block sampler init_rules total
                        cur ns np = Ok (history, ns', np') ->
  (history = [] ->
   ns' = ns /\ np' = np /\
   random_pruned_loop ss host fuel0 fuel next_block sampler init_rules total
                      cur next ns np = Ok (cur, next, ns', np')) /\
  (forall earlier last_one,
     history = earlier ++ [last_one] ->
     let previous := default cur (last (exp_frontier <$> earlier)) in
     random_pruned_loop ss host fuel0 fuel next_block sampler init_rules total
                        cur next ns np
     = Ok (exp_frontier last_one, previous, ns', np') /\
     expand_states
       (random_pruned_expand host fuel0 init_rules (exp_block last_one)
                             (exp_steps last_one))
       previous [] (exp_np last_one) = Ok (exp_frontier last_one, np')).
Proof.
  revert sampler total cur next ns np history.
  induction fuel as [|fuel IH]; intros sampler total cur next ns np history;
    cbn [random_pruned_history random_pruned_loop].
  - destruct (next_block sampler) as [b sampler'].
    destruct (decide (b = ""%string)).
    { intros [= <- <- <-]. split; [done|]. intros [|??] ? ?; done. }
    destruct (negb _); [|done].
    intros [= <- <- <-]. split; [done|]. intros [|??] ? ?; done.
  - destruct (next_block sampler) as [b sampler'].
    destruct (decide (b = ""%string)).
    { intros [= <- <- <-]. split; [done|]. intros [|??] ? ?; done. }
    destruct (negb _).
    { intros [= <- <- <-]. split; [done|]. intros [|??] ? ?; done. }
    destruct (expand_states _ cur [] np) as [[next' np1]| | |] eqn:Hex;
      cbn [mbind outcome_bind]; try done.
    destruct (random_pruned_history _ _ _ _ _ _ _ _ next' _ _)
      as [[[later ns1] np2]| | |] eqn:Hlater; cbn [mbind outcome_bind];
      try done.
    intros [= <- <- <-]. split; [done|].
    destruct (IH _ _ _ cur _ _ _ Hlater) as [Hnone Hsome].
    intros earlier last_one Heq. destruct earlier as [|e earlier].
    + simpl in Heq. injection Heq as <- ->.
      destruct (Hnone eq_refl) as (-> & -> & ->). by split.
    + simpl in Heq. injection Heq as <- ->.
      destruct (Hsome earlier last_one eq_refl) as [Hloop Hexp].
      cbn [fmap list_fmap exp_frontier].
      rewrite last_frontier_cons. by split.
Qed.

(** The loop returns only when its record does. *)
Lemma random_pruned_loop_recorded (ss : SearchSpace IRSchedule) host fuel0 fuel
    {S : Type} (next_block : S -> string * S) sampler init_rules total
    cur next ns np c n ns' np' :
  random_pruned_loop ss host fuel0 fuel next_block sampler init_rules total
                     cur next ns np = Ok (c, n, ns', np') ->
  exists history,
    random_pruned_history ss host fuel0 fuel next_block sampler init_rules
                          total cur ns np = Ok (history, ns', np').
Proof.
  revert sampler total cur next ns np.
  induction fuel as [|fuel IH]; intros sampler total cur next ns np;
    cbn [random_pruned_history random_pruned_loop].
  - destruct (next_block sampler) as [b sampler'].
    destruct (decide (b = ""%string)); [intros [= <- <- <- <-]; by eexists|].
    destruct (negb _); [intros [= <- <- <- <-]; by eexists|done].
  - destruct (next_block sampler) as [b sampler'].
    destruct (decide (b = ""%string)); [intros [= <- <- <- <-]; by eexists|].
    destruct (negb _); [intros [= <- <- <- <-]; by eexists|].
    destruct (expand_states _ cur [] np) as [[next' np1]| | |] eqn:Hex;
      cbn [mbind outcome_bind]; try done.
    intros [history ->]%IH. by eexists.
Qed.

(** Each recorded iteration drew a block with a proper name and one step
    count from the host. *)
Lemma random_pruned_history_draws (ss : SearchSpace IRSchedule) host fuel0 fuel
    {S : Type} (next_block : S -> string * S) sampler init_rules total
    cur ns np history ns' np' :
  random_pruned_history ss host fuel0 fuel next_block sampler init_rules total
                        cur ns np = Ok (history, ns', np') ->
  ns' = (ns + length history)%nat /\
  Forall (fun e => exp_block e <> ""%string) history.
Proof.
  revert sampler total cur ns np history.
  induction fuel as [|fuel IH]; intros sampler total cur ns np history;
    cbn [random_pruned_history].
  - destruct (next_block sampler) as [b sampler'].
    destruct (decide (b = ""%string)).
    { intros [= <- <- <-]. split; [simpl; lia|constructor]. }
    destruct (negb _); [|done].
    intros [= <- <- <-]. split; [simpl; lia|constructor].
  - destruct (next_block sampler) as [b sampler'].
    destruct (decide (b = ""%string)).
    { intros [= <- <- <-]. split; [simpl; lia|constructor]. }
    destruct (negb _).
    { intros [= <- <- <-]. split; [simpl; lia|constructor]. }
    destruct (expand_states _ cur [] np) as [[next' np1]| | |] eqn:Hex;
      cbn [mbind outcome_bind]; try done.
    destruct (random_pruned_history _ _ _ _ _ _ _ _ next' _ _)
      as [[[later ns1] np2]| | |] eqn:Hlater; cbn [mbind outcome_bind];
      try done.
    intros [= <- <- <-]. destruct (IH _ _ _ _ _ _ Hlater) as [-> Hall].
    split; [simpl; lia|by constructor].
Qed.

(** What the rule-pruned generator returns for a list of visited blocks
    with proper names. *)
Lemma GetRulePrunedInitialSketch_traversal (ss : SearchSpace IRSchedule) host
    (fuel : nat) :
  let init_state : State := mkSearchState (init_schedule ss) NOT_INIT_COST [] in
  let init_rules := removelast (sketch_rules_ ss) in
  let visited := rev (GetAllBlocks (init_schedule ss)) in
  init_rules <> [] ->
  (length init_rules <= fuel)%nat -> (length visited <= fuel)%nat ->
  Forall (fun b => b <> ""%string) visited ->
  GetRulePrunedInitialSketch ss host fuel
  = Ok (match visited with
        | [] => []
        | _ :: _ => rule_pruned_frontier host init_rules
                                         (removelast visited) [init_state]
        end).
Proof.
  intros init_state init_rules visited Hrules Hf0 Hf Hne.
  unfold GetRulePrunedInitialSketch.
  fold visited init_rules init_state. unfold BlockSampler_Make.
  rewrite decide_True by done. cbn [mbind outcome_bind].
  rewrite bool_decide_eq_false_2 by (by apply removelast_nonempty).
  rewrite bool_decide_eq_false_2 by done.
  rewrite rule_pruned_loop_traversal by done.
  by cbn [mbind outcome_bind bs_cur TraversalBlockSampler].
Qed.

(** C10: both pruned generators return the buffer behind [p_states_next]:
    for the rule-pruned generator the frontier reached before the last
    visited block was expanded; nothing for a program without blocks; the
    initial state alone for a one-block program; and for the random-pruned
    generator nothing when no iteration ran, and otherwise the frontier that
    the last iteration read (the one written by the iteration before it, or
    the initial state alone), while the frontier the last iteration wrote
    from it, on the block and with the step count of that iteration, stays
    behind in [p_states_cur]. *)
Theorem pruned_sketch_returns_previous_frontier
    (ss : SearchSpace IRSchedule) host (fuel : nat) :
  let init_state : State := mkSearchState (init_schedule ss) NOT_INIT_COST [] in
  let init_rules := removelast (sketch_rules_ ss) in
  let visited := rev (GetAllBlocks (init_schedule ss)) in
  init_rules <> [] ->
  (length init_rules <= fuel)%nat -> (length visited <= fuel)%nat ->
  (forall bs b,
     visited = bs ++ [b] -> Forall (fun b => b <> ""%string) visited ->
     rule_pruned_loop host fuel fuel (NextBlock (TraversalBlockSampler visited))
                      visited init_rules [init_state] []
     = Ok (rule_pruned_frontier host init_rules visited [init_state],
           rule_pruned_frontier host init_rules bs [init_state]) /\
     GetRulePrunedInitialSketch ss host fuel
     = Ok (rule_pruned_frontier host init_rules bs [init_state])) /\
  (GetAllBlocks (init_schedule ss) = [] ->
   GetRulePrunedInitialSketch ss host fuel = Ok [] /\
   forall ns np,
     (NextBlock (ProbabilisticBlockSampler [])
                (bs_cur (ProbabilisticBlockSampler []))).1 = ""%string ->
     GetRandomPrunedInitialSketch ss host fuel ns np = Ok ([], ns, np)) /\
  (forall b,
     GetAllBlocks (init_schedule ss) = [b] -> b <> ""%string ->
     GetRulePrunedInitialSketch ss host fuel = Ok [init_state]) /\
  (forall ns np,
     let block_sampler :=
       ProbabilisticBlockSampler (GetAllBlocks (init_schedule ss)) in
       BlockSampler_Make (GetAllBlocks (init_schedule ss)) "probabilistic"
         = Ok block_sampler /\
       let loop :=
         random_pruned_loop ss host fuel fuel (NextBlock block_sampler)
                            (bs_cur block_sampler) init_rules 0 [init_state]
                            [] ns np in
       let record :=
         random_pruned_history ss host fuel fuel (NextBlock block_sampler)
                               (bs_cur block_sampler) init_rules 0
                               [init_state] ns np in
       (forall ns' np',
          record = Ok ([], ns', np') ->
          ns' = ns /\ np' = np /\
          loop = Ok ([init_state], [], ns, np) /\
          GetRandomPrunedInitialSketch ss host fuel ns np = Ok ([], ns, np)) /\
       (forall earlier last_one ns' np',
          record = Ok (earlier ++ [last_one], ns', np') ->
          let previous :=
            default [init_state] (last (exp_frontier <$> earlier)) in
          ns' = (ns + length (earlier ++ [last_one]))%nat /\
          exp_block last_one <> ""%string /\
          loop = Ok (exp_frontier last_one, previous, ns', np') /\
          GetRandomPrunedInitialSketch ss host fuel ns np
          = Ok (previous, ns', np') /\
          expand_states
            (random_pruned_expand host fuel init_rules (exp_block last_one)
                                  (exp_steps last_one))
            previous [] (exp_np last_one)
          = Ok (exp_frontier last_one, np')) /\
       (forall res ns' np',
          GetRandomPrunedInitialSketch ss host fuel ns np = Ok (res, ns', np') ->
          exists history, record = Ok (history, ns', np'))).
Proof.
  intros init_state init_rules visited Hrules Hf0 Hf.
  pose proof (GetRulePrunedInitialSketch_traversal ss host fuel Hrules Hf0 Hf)
    as Hrule.
  fold init_state init_rules visited in Hrule.
  pose proof (removelast_nonempty _ Hrules) as Hregistry.
  split; [|split; [|split]].
  - intros bs b Hv Hne. split.
    + rewrite rule_pruned_loop_traversal by done.
      rewrite Hv, removelast_last. by destruct bs.
    + rewrite (Hrule Hne), Hv.
      rewrite removelast_last. by destruct bs.
  - intros Hnil. split.
    { assert (visited = []) as Hv by (unfold visited; by rewrite Hnil).
      rewrite Hrule by (by rewrite Hv). by rewrite Hv. }
    intros ns np Hempty. unfold GetRandomPrunedInitialSketch.
    rewrite Hnil. unfold BlockSampler_Make. rewrite decide_False by done.
    rewrite decide_True by done. simpl. fold init_rules.
    rewrite bool_decide_eq_false_2 by done.
    rewrite bool_decide_eq_false_2 by done.
    destruct (NextBlock (ProbabilisticBlockSampler [])
                        (bs_cur (ProbabilisticBlockSampler []))) as [b s'] eqn:Hnext.
    simpl in Hempty. subst b.
    destruct fuel; simpl; rewrite Hnext; simpl; done.
  - intros b Hone Hb.
    assert (visited = [b]) as Hv by (unfold visited; by rewrite Hone).
    rewrite Hrule by (rewrite Hv; by apply Forall_singleton). by rewrite Hv.
  - intros ns np. unfold GetRandomPrunedInitialSketch, BlockSampler_Make.
    rewrite decide_False by done. rewrite decide_True by done.
    split; [done|]. cbn [mbind outcome_bind]. fold init_rules.
    rewrite bool_decide_eq_false_2 by done.
    rewrite bool_decide_eq_false_2 by done.
    fold init_state. cbv zeta. split; [|split].
    + intros ns' np' Hrec.
      destruct (random_pruned_loop_history _ _ _ _ _ _ _ _ _ [] _ _ _ _ _ Hrec)
        as [Hnone _].
      destruct (Hnone eq_refl) as (-> & -> & Hloop).
      by rewrite Hloop.
    + intros earlier last_one ns' np' Hrec.
      destruct (random_pruned_loop_history _ _ _ _ _ _ _ _ _ [] _ _ _ _ _ Hrec)
        as [_ Hsome].
      destruct (Hsome earlier last_one eq_refl) as [Hloop Hexp].
      destruct (random_pruned_history_draws _ _ _ _ _ _ _ _ _ _ _ _ _ _ Hrec)
        as [Hns Hnames].
      split; [done|]. split; [|by rewrite Hloop].
      apply Forall_app in Hnames as [_ Hlast].
      exact (proj1 (Forall_singleton _ _) Hlast).
    + intros res ns' np'.
      destruct (random_pruned_loop _ _ _ _ _ _ _ _ _ _ _ _)
        as [[[[c n] ns1] np1]| | |] eqn:Hloop; cbn [mbind outcome_bind];
        try done.
      intros [= <- <- <-].
      by apply random_pruned_loop_recorded in Hloop.
Qed.

End PrunedSketchProperties.

Section InitialSketchProperties.
Context {IRSchedule Cost RandState : Type}.
Context {collab : Collaborators IRSchedule Cost RandState}.

Local Abbreviation State := (SearchState IRSchedule Cost).

Implicit Types (host : HostEntropy) (layer cur next : list State).

(** Under rule pruning without that signal no state leaves the layer. *)
Lemma transfer_layer_keeps host r block p layer np :
  (forall st : State, AnalyseApplyType r st block <> kApplyAndSkipAllRules) ->
  (transfer_layer host r block true p layer np).1.1 = layer.
Proof.
  intros Hns. induction layer as [|st layer IH]; simpl; [done|].
  destruct (transfer_layer host r block true p layer np) as [[k n] np'].
  simpl in IH. subst k.
  destruct (negb (CheckBlockExist st block)); [done|].
  destruct (decide (AnalyseApplyType r st block = kCannotApply)); [done|].
  simpl. by rewrite bool_decide_eq_false_2 by apply Hns.
Qed.

Lemma traverse_rules_keeps host block p rules layer np :
  never_skip_all ->
  exists extra,
    (traverse_rules host block true p rules layer np).1 = layer ++ extra.
Proof.
  intros Hns. revert layer np.
  induction rules as [|r rules IH]; intros layer np; simpl.
  - exists []. by rewrite app_nil_r.
  - pose proof (transfer_layer_keeps host (rule r) block p layer np
                (fun st => Hns r st block)) as Hk.
    destruct (transfer_layer host (rule r) block true p layer np) as [[k n] np'].
    simpl in Hk. subst k.
    destruct (IH (layer ++ n) np') as [extra ->].
    exists (n ++ extra). by rewrite app_assoc.
Qed.

Lemma elem_of_rev {A} (x : A) (l : list A) : x ∈ rev l <-> x ∈ l.
Proof. rewrite !list_elem_of_In. symmetry. apply in_rev. Qed.

(** The loop that moves sketches into the result. *)
Lemma push_sketches_spec (num : Z) (result it : list State) :
  Z.of_nat (length result) < num ->
  let result' := push_sketches num result it in
  Z.of_nat (length result') <= num /\
  (it <> [] -> (length result < length result')%nat) /\
  (forall x, x ∈ result' -> x ∈ result \/ x ∈ it) /\
  (forall x, x ∈ result -> x ∈ result') /\
  (Z.of_nat (length result + length it) <= num -> result' = result ++ it).
Proof.
  revert result. induction it as [|s it IH]; intros result Hlt; simpl.
  - split; [lia|]. split; [done|]. split; [by left|]. split; [done|].
    by rewrite app_nil_r.
  - rewrite length_app. simpl.
    destruct (Z.of_nat (length result + 1) =? num) eqn:Heq.
    + apply Z.eqb_eq in Heq. rewrite length_app. simpl.
      split; [lia|]. split; [lia|]. split.
      { intros x [?|Hx%list_elem_of_singleton]%elem_of_app;
          [by left|subst x; right; left]. }
      split; [intros x Hx; apply elem_of_app; by left|].
      intros Hall. assert (it = []) as -> by (destruct it; [done|simpl in Hall; lia]).
      done.
    + apply Z.eqb_neq in Heq.
      destruct (IH (result ++ [s])) as (Hle & Hgrow & Hin & Hpre & Hall).
      { rewrite length_app. simpl. lia. }
      rewrite length_app in *. simpl in *.
      split; [done|]. split.
      { intros _. destruct it as [|s' it]; [simpl; rewrite length_app; simpl; lia|].
        specialize (Hgrow ltac:(done)). lia. }
      split.
      { intros x [[?|Hx%list_elem_of_singleton]%elem_of_app|?]%Hin;
          [by left|subst x; right; left|right; by right]. }
      split; [intros x Hx; apply Hpre, elem_of_app; by left|].
      intros Hsum. rewrite Hall by lia. by rewrite <- app_assoc.
Qed.

(** The outer loop of [GetInitialSketch] with a generator that yields the
    same non-empty frontier at every call. *)
Lemma initial_sketch_loop_rule_prune (ss : SearchSpace IRSchedule) host
    fuel0 frontier ns np :
  GetRulePrunedInitialSketch ss host fuel0 = Ok frontier -> frontier <> [] ->
  forall fuel (result : list State),
    (length result <= 3)%nat -> (3 - length result <= fuel)%nat ->
    exists res,
      initial_sketch_loop ss host fuel0 fuel 3 "rule_prune" result ns np
        = Ok (res, ns, np) /\
      length res = 3%nat /\
      (forall x, x ∈ res -> x ∈ result \/ x ∈ frontier) /\
      (forall x, x ∈ result -> x ∈ res).
Proof.
  intros Hgen Hne. induction fuel as [|fuel IH]; intros result Hlen Hfuel.
  - assert (length result = 3%nat) as Hthree by lia.
    exists result. simpl. rewrite Hthree. simpl.
    split; [done|]. split; [done|]. split; [by left|done].
  - cbn [initial_sketch_loop].
    destruct (Z.of_nat (length result) <? 3) eqn:Hlt.
    + apply Z.ltb_lt in Hlt. rewrite decide_True by done.
      rewrite Hgen. cbn [mbind outcome_bind].
      destruct (push_sketches_spec 3 result (rev frontier) Hlt)
        as (Hle & Hgrow & Hin & Hpre & _).
      assert (rev frontier <> []) as Hrev.
      { intros Hr. apply Hne. by rewrite <- (rev_involutive frontier), Hr. }
      specialize (Hgrow Hrev).
      destruct (IH (push_sketches 3 result (rev frontier))) as (res & Hrun & Hres & Hfrom & Hkeep);
        [lia..|].
      exists res. split; [done|]. split; [done|]. split.
      * intros x [[?|Hx]%Hin|?]%Hfrom; [by left| |by right].
        right. by rewrite elem_of_rev in Hx.
      * intros x Hx. by apply Hkeep, Hpre.
    + apply Z.ltb_ge in Hlt. exists result.
      split; [done|]. split; [lia|]. split; [by left|done].
Qed.

(** C2: for a program with two named blocks and rules that
    never signal skip-all, GetInitialSketch(3, "rule_prune") returns exactly
    three states, all taken from the frontier that one call of the
    rule-pruned generator returns; that frontier starts with the initial
    state, which is among the three whenever the frontier has no more than
    three states, and is all three of them when the frontier holds nothing
    else. *)
Theorem GetInitialSketch_rule_prune_three
    (ss : SearchSpace IRSchedule) host (fuel : nat) (ns np : nat) b1 b2 :
  let init_state : State := mkSearchState (init_schedule ss) NOT_INIT_COST [] in
  let init_rules := removelast (sketch_rules_ ss) in
  GetAllBlocks (init_schedule ss) = [b1; b2] ->
  b1 <> ""%string -> b2 <> ""%string ->
  never_skip_all -> init_rules <> [] ->
  (3 <= fuel)%nat -> (length init_rules <= fuel)%nat ->
  exists res frontier,
    GetInitialSketch ss host fuel 3 "rule_prune" ns np = Ok (res, ns, np) /\
    length res = 3%nat /\
    GetRulePrunedInitialSketch ss host fuel = Ok frontier /\
    head frontier = Some init_state /\
    (forall st, st ∈ res -> st ∈ frontier) /\
    ((length frontier <= 3)%nat -> init_state ∈ res) /\
    (frontier = [init_state] -> res = [init_state; init_state; init_state]).
Proof.
  intros init_state init_rules Hblocks Hb1 Hb2 Hns Hrules Hfuel Hfuel0.
  pose proof (GetRulePrunedInitialSketch_traversal ss host fuel Hrules Hfuel0)
    as Hgen.
  rewrite Hblocks in Hgen.
  specialize (Hgen ltac:(simpl; lia) ltac:(by repeat constructor)).
  fold init_state init_rules in Hgen.
  set (frontier := rule_pruned_expand host init_rules b2 [init_state]).
  change (rule_pruned_frontier host init_rules [b2] [init_state])
    with frontier in Hgen.
  assert (exists extra, frontier = init_state :: extra) as [extra Hfr].
  { unfold frontier, rule_pruned_expand. simpl. rewrite app_nil_r.
    destruct (traverse_rules_keeps host b2 default_prune_probability init_rules
                                   [init_state] O Hns) as [extra ->].
    by exists extra. }
  assert (frontier <> []) as Hne by (by rewrite Hfr).
  unfold GetInitialSketch. change (size_t_of_int 3) with 3.
  destruct fuel as [|fuel']; [lia|].
  cbn [initial_sketch_loop length]. change (Z.of_nat 0 <? 3) with true.
  cbn iota. rewrite decide_True by done. rewrite Hgen.
  cbn [mbind outcome_bind].
  destruct (push_sketches_spec 3 [] (rev frontier) ltac:(done))
    as (Hle & Hgrow & Hin & _ & Hall).
  destruct (initial_sketch_loop_rule_prune ss host (S fuel') frontier ns np
              Hgen Hne fuel' (push_sketches 3 [] (rev frontier)))
    as (res & Hrun & Hres & Hfrom & Hkeep).
  { lia. }
  { assert (rev frontier <> []) as Hrev.
    { intros Hr. apply Hne. by rewrite <- (rev_involutive frontier), Hr. }
    specialize (Hgrow Hrev). simpl in Hgrow. lia. }
  assert (forall st, st ∈ res -> st ∈ frontier) as Hres_in.
  { intros st [[Hst|Hst]%Hin|Hst]%Hfrom; [by apply elem_of_nil in Hst| |done].
    by rewrite elem_of_rev in Hst. }
  exists res, frontier. split; [done|]. split; [done|]. split; [done|].
  split; [by rewrite Hfr|]. split; [done|]. split.
  - intros Hsmall. apply Hkeep. rewrite Hall.
    + simpl. rewrite elem_of_rev, Hfr. left.
    + simpl. rewrite length_rev. lia.
  - intros Hone. rewrite Hone in Hres_in.
    destruct res as [|x [|y [|z [|? ?]]]]; try done.
    pose proof (Hres_in x ltac:(left)) as Hx.
    pose proof (Hres_in y ltac:(right; left)) as Hy.
    pose proof (Hres_in z ltac:(right; right; left)) as Hz.
    apply list_elem_of_singleton in Hx, Hy, Hz. by subst.
Qed.

End InitialSketchProperties.

Section EntropyProperties.
Context {IRSchedule Cost RandState : Type}.
Context {collab : Collaborators IRSchedule Cost RandState}.

Local Abbreviation State := (SearchState IRSchedule Cost).

Implicit Types (host : HostEntropy) (layer cur next : list State).

(** With [prune_probability = 1] the decision is to prune, whatever the
    draw. *)
Lemma need_prune_certain host type np :
  unit_interval_draws host -> need_prune host false 1 type np = (true, S np).
Proof.
  intros Hdraw. unfold need_prune. f_equal.
  destruct (Qle_bool 1 (prune_draw host np)) eqn:Hle; [|done].
  apply Qle_bool_iff in Hle. destruct (Hdraw np) as [_ Hlt].
  exfalso. by apply (Qlt_not_le _ _ Hlt).
Qed.

Lemma transfer_layer_certain host1 host2 r block layer np :
  unit_interval_draws host1 -> unit_interval_draws host2 ->
  transfer_layer host1 r block false 1 layer np =
  transfer_layer host2 r block false 1 layer np.
Proof.
  intros H1 H2. revert np.
  induction layer as [|st layer IH]; intros np; cbn [transfer_layer]; [done|].
  destruct (negb (CheckBlockExist st block)); [by rewrite IH|].
  destruct (decide (AnalyseApplyType r st block = kCannotApply)); [by rewrite IH|].
  rewrite !need_prune_certain by done. by rewrite IH.
Qed.

Lemma transfer_loop_certain host1 host2 fuel {S : Type}
    (next_rule : S -> option RuleId * S) sampler block steps step layer np :
  unit_interval_draws host1 -> unit_interval_draws host2 ->
  transfer_loop host1 fuel next_rule sampler block steps false 1 step layer np =
  transfer_loop host2 fuel next_rule sampler block steps false 1 step layer np.
Proof.
  intros H1 H2. revert sampler step layer np.
  induction fuel as [|fuel IH]; intros sampler step layer np; simpl; [done|].
  destruct (_ || _); [|done].
  destruct (next_rule sampler) as [[r|] sampler']; [|done].
  rewrite (transfer_layer_certain host1 host2) by done.
  destruct (transfer_layer host2 (rule r) block false 1 layer np) as [[k n] np'].
  apply IH.
Qed.

Lemma expand_states_ext (e1 e2 : State -> nat -> outcome (list State * nat))
    cur next np :
  (forall st np, e1 st np = e2 st np) ->
  expand_states e1 cur next np = expand_states e2 cur next np.
Proof.
  intros He. revert next np. induction cur as [|st cur IH]; intros next np; simpl; [done|].
  rewrite He. destruct (e2 st np) as [[new_states np']| | |]; simpl; [|done..].
  apply IH.
Qed.

Lemma random_pruned_expand_certain host1 host2 fuel init_rules block steps :
  unit_interval_draws host1 -> unit_interval_draws host2 ->
  forall (st : State) np,
    random_pruned_expand host1 fuel init_rules block steps st np =
    random_pruned_expand host2 fuel init_rules block steps st np.
Proof.
  intros H1 H2 st np. unfold random_pruned_expand.
  destruct (RuleSampler_Make _ _); simpl; [|done..].
  by apply transfer_loop_certain.
Qed.

Lemma random_pruned_loop_certain (ss : SearchSpace IRSchedule) host1 host2
    fuel0 fuel {S : Type} (next_block : S -> string * S) sampler init_rules
    total cur next ns np :
  (forall i, steps_draw host1 i = steps_draw host2 i) ->
  unit_interval_draws host1 -> unit_interval_draws host2 ->
  random_pruned_loop ss host1 fuel0 fuel next_block sampler init_rules total
                     cur next ns np =
  random_pruned_loop ss host2 fuel0 fuel next_block sampler init_rules total
                     cur next ns np.
Proof.
  intros Hsteps H1 H2. revert sampler total cur next ns np.
  induction fuel as [|fuel IH]; intros sampler total cur next ns np; simpl; [done|].
  destruct (next_block sampler) as [b sampler'].
  destruct (decide (b = ""%string)); [done|].
  destruct (negb _); [done|]. rewrite Hsteps.
  rewrite (expand_states_ext _ _ _ _ _
             (random_pruned_expand_certain host1 host2 fuel0 init_rules b _ H1 H2)).
  destruct (expand_states _ cur [] np) as [[next' np1]| | |]; simpl; [|done..].
  apply IH.
Qed.

(** C4: the randomness of the random-pruned path comes from the
    host: the step count of each block is a host draw, and the prune decision
    compares a host draw in [0, 1) with the probability 1. Two runs that
    draw the same step counts return the same result, whatever their prune
    draws. *)
Theorem GetRandomPrunedInitialSketch_host_draws
    (ss : SearchSpace IRSchedule) host1 host2 (fuel ns np : nat) :
  (forall i, steps_draw host1 i = steps_draw host2 i) ->
  unit_interval_draws host1 -> unit_interval_draws host2 ->
  GetRandomPrunedInitialSketch ss host1 fuel ns np =
  GetRandomPrunedInitialSketch ss host2 fuel ns np.
Proof.
  intros Hsteps H1 H2. unfold GetRandomPrunedInitialSketch.
  destruct (BlockSampler_Make _ _) as [bs| | |]; simpl; [|done..].
  destruct (bool_decide _); [done|].
  by rewrite (random_pruned_loop_certain ss host1 host2).
Qed.

End EntropyProperties.

(** * Runs on concrete inputs *)

Import Toy.

Lemma c_rand_nonneg : rand_nonneg (collab := collaborators unit_rules).
Proof.
  intros g. simpl. unfold c_rand. simpl.
  apply Z.mod_pos_bound. lia.
Qed.

Lemma unit_rules_unit_weights : unit_weights (collab := collaborators unit_rules).
Proof. intros r ir. by destruct r as [|[|[|[|r]]]]. Qed.

Lemma unit_rules_never_skip_all :
  never_skip_all (collab := collaborators unit_rules).
Proof. intros r st block. by destruct r as [|[|[|[|r]]]]. Qed.

Lemma idle_rules_never_skip_all :
  never_skip_all (collab := collaborators idle_rules).
Proof. intros r st block. by destruct r as [|[|[|[|r]]]]. Qed.

(** C1: with the tiling rule alone applicable at three positions and the
    first value of [rand()], the sample index 2 lies in that rule's span
    (local index 2 < 3), but [lower_bound] finds no key at or above 2 and the
    code dereferences [end()] instead of selecting the rule. *)
Theorem RandomScheduleMutate_sample_past_last_key :
  entered_rules (collab := collaborators wide_rules) one_block
                (applicable_rules (registry_state one_block)) = [1%nat] /\
  NumberApplicable (rule (Collaborators := collaborators wide_rules) 1%nat)
                   one_block = 3 /\
  (c_rand 1).1 = 16838 /\ Z.rem 16838 3 = 2 /\
  lower_bound {[0 := 1%nat]} 2 = None /\
  RandomScheduleMutate (collab := collaborators wide_rules)
                       (registry_state one_block) 1
  = Undefined EndIteratorDeref.
Proof. repeat split; vm_compute; reflexivity. Qed.

(** A run of the rule-pruned path on rules that never apply: the three
    states returned are the initial, unmodified program. *)
Lemma GetInitialSketch_rule_prune_initial_program :
  never_skip_all (collab := collaborators idle_rules) /\
  GetAllBlocks (Collaborators := collaborators idle_rules)
               (init_schedule (space two_blocks)) = ["B0"%string; "B1"%string] /\
  GetInitialSketch (collab := collaborators idle_rules) (space two_blocks)
                   (host 0 0) 10 3 "rule_prune" 0 0
  = Ok ([init_state two_blocks; init_state two_blocks; init_state two_blocks],
        O, O) /\
  ir_schedule (init_state two_blocks) = init_schedule (space two_blocks).
Proof.
  split; [exact idle_rules_never_skip_all|].
  repeat split; vm_compute; reflexivity.
Qed.

Lemma GetInitialSketch_rule_prune_three_witness :
  exists res,
    GetInitialSketch (collab := collaborators unit_rules) (space two_blocks)
                     (host 0 0) 10 3 "rule_prune" 0 0 = Ok (res, O, O) /\
    length res = 3%nat.
Proof.
  destruct (GetInitialSketch_rule_prune_three
              (collab := collaborators unit_rules) (space two_blocks)
              (host 0 0) 10 0 0 "B0" "B1")
    as (res & frontier & Hrun & Hlen & _).
  - reflexivity.
  - discriminate.
  - discriminate.
  - exact unit_rules_never_skip_all.
  - discriminate.
  - lia.
  - simpl. lia.
  - exists res. split; [exact Hrun|exact Hlen].
Defined.

(** A negative seed other than the sentinel is rejected. *)
Lemma NormalizeState_rejects_negative :
  int64 (-2) /\ uint32 0 /\
  LinearRandomEngine.NormalizeState 0 (-2)
  = Fatal LinearRandomEngine.seed_check_msg /\
  ~ (exists s, LinearRandomEngine.NormalizeState 0 (-2) = Ok s /\
               LinearRandomEngine.valid_state s).
Proof.
  split; [unfold int64; lia|]. split; [unfold uint32; lia|].
  split; [reflexivity|]. intros (s & Hs & _). discriminate Hs.
Qed.

Lemma NormalizeState_range_witness :
  exists s, LinearRandomEngine.NormalizeState 0 5 = Ok s /\
            LinearRandomEngine.valid_state s.
Proof.
  apply (NormalizeState_range 0 5).
  - unfold uint32. lia.
  - unfold int64. lia.
  - left. lia.
Defined.

(** Two runs on the same program, rules and sampler seed that draw
    different step counts from the host return different frontiers. *)
Lemma GetRandomPrunedInitialSketch_depends_on_host :
  (forall i, 0 <= steps_draw (host 1 0) i <= 3) /\
  (forall i, 0 <= steps_draw (host 2 0) i <= 3) /\
  exists res1 res2 w1 w2,
    GetRandomPrunedInitialSketch (collab := collaborators unit_rules)
      (space two_blocks) (host 1 0) 10 0 0 = Ok (res1, w1.1, w1.2) /\
    GetRandomPrunedInitialSketch (collab := collaborators unit_rules)
      (space two_blocks) (host 2 0) 10 0 0 = Ok (res2, w2.1, w2.2) /\
    map ir_schedule res1 <> map ir_schedule res2.
Proof.
  split; [intros i; simpl; lia|]. split; [intros i; simpl; lia|].
  eexists _, _, (_, _), (_, _).
  split; [vm_compute; reflexivity|]. split; [vm_compute; reflexivity|].
  vm_compute. discriminate.
Qed.

Lemma GetRandomPrunedInitialSketch_host_draws_witness :
  GetRandomPrunedInitialSketch (collab := collaborators unit_rules)
    (space two_blocks) (host 1 0) 10 0 0 =
  GetRandomPrunedInitialSketch (collab := collaborators unit_rules)
    (space two_blocks) (host 1 (1 # 2)) 10 0 0.
Proof.
  apply (GetRandomPrunedInitialSketch_host_draws
           (collab := collaborators unit_rules)).
  - reflexivity.
  - intros i. split; [discriminate|reflexivity].
  - intros i. split; [discriminate|reflexivity].
Defined.

(** Two successive runs in one process, the second starting from the state
    of [rand()] the first one left: the sketches differ. *)
Lemma GetRandomInitialSketch_rerun_differs :
  exists first g1 second g2,
    GetRandomInitialSketch (collab := collaborators unit_rules)
                           (space one_block) 5 1 = Ok (first, g1) /\
    GetRandomInitialSketch (collab := collaborators unit_rules)
                           (space one_block) 5 g1 = Ok (second, g2) /\
    length first = 5%nat /\ length second = 5%nat /\
    map ir_schedule first <> map ir_schedule second.
Proof.
  eexists _, _, _, _.
  split; [vm_compute; reflexivity|]. split; [vm_compute; reflexivity|].
  split; [reflexivity|]. split; [reflexivity|].
  vm_compute. discriminate.
Qed.

Lemma GetRandomInitialSketch_five_witness :
  exists res g',
    GetRandomInitialSketch (collab := collaborators unit_rules)
                           (space one_block) 5 1 = Ok (res, g') /\
    length res = 5%nat /\
    Forall (fun st : State =>
              applicable_rules st `sublist_of` sketch_rules_ (space one_block) /\
              blocks (ir_schedule st) <> []) res.
Proof.
  destruct (GetRandomInitialSketch_five
              (collab := collaborators unit_rules) (space one_block) 1
              (fun ir => blocks ir <> [])) as (Hres & Htotal & _).
  - discriminate.
  - intros r ir index Hir. destruct r as [|[|[|[|r]]]]; exact Hir.
  - destruct (Htotal eq_refl unit_rules_unit_weights c_rand_nonneg)
      as (res & g' & Hrun).
    exists res, g'. split; [exact Hrun|]. exact (Hres res g' Hrun).
Defined.

Lemma RandomScheduleMutate_applicable_rules_sublist_witness :
  exists ret g',
    RandomScheduleMutate (collab := collaborators unit_rules)
                         (registry_state one_block) 1 = Ok (ret, g') /\
    applicable_rules ret `sublist_of` [0; 1; 2; 3]%nat.
Proof.
  pose (o := RandomScheduleMutate (collab := collaborators unit_rules)
                                  (registry_state one_block) 1).
  assert (RandomScheduleMutate (collab := collaborators unit_rules)
                               (registry_state one_block) 1 = o) as Hrun
    by reflexivity.
  vm_compute in o. subst o.
  eexists _, _. split; [exact Hrun|].
  exact (proj1 (RandomScheduleMutate_applicable_rules_sublist
                  (collab := collaborators unit_rules) [] _ _ _ _ Hrun)).
Defined.

Lemma RandomScheduleMutate_no_applicable_rule_witness :
  RandomScheduleMutate (collab := collaborators idle_rules)
                       (registry_state one_block) 1
  = Ok (registry_state one_block, 1).
Proof.
  apply (RandomScheduleMutate_no_applicable_rule
           (collab := collaborators idle_rules)).
  intros r _. destruct r as [|[|[|[|r]]]]; reflexivity.
Defined.

Lemma RandomScheduleMutate_zero_weight_witness :
  RandomScheduleMutate (collab := collaborators zero_rules)
                       (registry_state one_block) 1
  = Undefined ModuloByZero.
Proof.
  destruct (RandomScheduleMutate_zero_weight
              (collab := collaborators zero_rules) (registry_state one_block) 1)
    as (_ & _ & Hzero & _).
  apply Hzero.
  - discriminate.
  - intros r _. destruct r as [|[|[|[|r]]]]; reflexivity.
Defined.

Lemma pruned_sketch_returns_previous_frontier_witness :
  GetRulePrunedInitialSketch (collab := collaborators unit_rules)
                             (space two_blocks) (host 1 0) 10
  = Ok (rule_pruned_frontier (collab := collaborators unit_rules) (host 1 0)
                             [0; 1; 2]%nat ["B1"%string]
                             [init_state two_blocks]) /\
  exists produced previous,
    random_pruned_loop (collab := collaborators unit_rules)
      (space two_blocks) (host 1 0) 10 10
      (NextBlock (engine_block_sampler ["B0"; "B1"]%string))
      (bs_cur (engine_block_sampler ["B0"; "B1"]%string))
      [0; 1; 2]%nat 0 [init_state two_blocks] [] 0 0
    = Ok (produced, previous, 2%nat, 2%nat) /\
    GetRandomPrunedInitialSketch (collab := collaborators unit_rules)
      (space two_blocks) (host 1 0) 10 0 0 = Ok (previous, 2%nat, 2%nat) /\
    map ir_schedule previous
    = [mkProg ["B0"; "B1"]%string [AppliedOnBlock 0%nat "B0"]] /\
    map ir_schedule produced
    = [mkProg ["B0"; "B1"]%string
              [AppliedOnBlock 0%nat "B0"; AppliedOnBlock 0%nat "B1"]].
Proof.
  destruct (pruned_sketch_returns_previous_frontier
              (collab := collaborators unit_rules) (space two_blocks)
              (host 1 0) 10) as (Hgen & _ & _ & Hrand).
  - discriminate.
  - simpl. lia.
  - simpl. lia.
  - split.
    + apply (Hgen ["B1"%string] "B0"%string); [reflexivity|].
      repeat constructor; discriminate.
    + destruct (Hrand O O) as (_ & _ & Hsome & _).
      destruct (Hsome
                  [mkExpansion "B0" 1 0
                     [mkSearchState
                        (mkProg ["B0"; "B1"]%string [AppliedOnBlock 0%nat "B0"])
                        None []]]
                  (mkExpansion "B1" 1 1
                     [mkSearchState
                        (mkProg ["B0"; "B1"]%string
                                [AppliedOnBlock 0%nat "B0";
                                 AppliedOnBlock 0%nat "B1"])
                        None []])
                  2%nat 2%nat) as (_ & _ & Hloop & Hret & _).
      { vm_compute. reflexivity. }
      eexists _, _. split; [exact Hloop|]. split; [exact Hret|].
      split; reflexivity.
Defined.

(** A valid state whose child seed is the state itself. *)
Lemma ForkState_child_equals_parent :
  LinearRandomEngine.valid_state 617220413 /\
  LinearRandomEngine.ForkState 617220413 = (617220413, 1805921092) /\
  (LinearRandomEngine.ForkState 617220413).1 = 617220413.
Proof.
  split; [unfold LinearRandomEngine.valid_state, LinearRandomEngine.modulus; lia|].
  split; reflexivity.
Qed.

Lemma ForkState_children_witness :
  (LinearRandomEngine.ForkState 1).1 <> (LinearRandomEngine.ForkState 48271).1.
Proof.
  apply (ForkState_children 1).
  unfold LinearRandomEngine.valid_state, LinearRandomEngine.modulus. lia.
Defined.

(** * Further properties of the linear random engine *)

Section EngineMore.
Import LinearRandomEngine.

(** X1: whatever the seed and the device value, a seed that
    [NormalizeState] accepts is normalized into [1, modulus - 1], and
    normalizing the result again returns it unchanged. *)
Theorem NormalizeState_sound_idempotent (dev dev' state s : Z) :
  NormalizeState dev state = Ok s ->
  valid_state s /\ NormalizeState dev' s = Ok s.
Proof.
  unfold NormalizeState, GetDeviceRandomValue, valid_state, modulus.
  set (x := if state =? -1 then Z.rem dev 2147483647
            else Z.rem state 2147483647).
  assert (Z.abs x < 2147483647) as Hx.
  { pose proof (Z.rem_bound_abs dev 2147483647 ltac:(lia)).
    pose proof (Z.rem_bound_abs state 2147483647 ltac:(lia)).
    unfold x. destruct (state =? -1); lia. }
  clearbody x. intros Hok.
  assert (1 <= s <= 2147483647 - 1) as Hs.
  { destruct (x =? 0) eqn:Hz.
    - simpl in Hok. injection Hok as <-. lia.
    - apply Z.eqb_neq in Hz. destruct (0 <=? x) eqn:Hle; [|done].
      apply Z.leb_le in Hle. injection Hok as <-. lia. }
  split; [done|].
  destruct (s =? -1) eqn:Hm; [lia|].
  rewrite Z.rem_small by lia.
  destruct (s =? 0) eqn:Hz; [lia|].
  destruct (0 <=? s) eqn:Hle; [done|]. apply Z.leb_gt in Hle. lia.
Qed.

Lemma Next_n_valid n s : valid_state s -> valid_state (Next_n n s).
Proof.
  revert s. induction n as [|n IH]; intros s Hs; cbn [Next_n]; [done|].
  apply IH. rewrite (Next_valid s Hs). by apply Next_stays_valid.
Qed.

Lemma Next_n_S n s : Next_n (S n) s = (Next (Next_n n s)).2.
Proof.
  revert s. induction n as [|n IH]; intros s; [done|].
  change (Next_n (S (S n)) s) with (Next_n (S n) (Next s).2).
  by rewrite IH.
Qed.

(** X2: from a valid state the engine stays in [1, modulus - 1] for any
    number of calls of [Next]; every value it returns is the new state and
    lies within the declared output range, never at its lower end 0. *)
Theorem Next_n_stays_valid (n : nat) (s : Z) :
  valid_state s ->
  valid_state (Next_n n s) /\
  (Next (Next_n n s)).1 = (Next (Next_n n s)).2 /\
  (Next (Next_n n s)).2 = Next_n (S n) s /\
  min < (Next (Next_n n s)).1 <= max.
Proof.
  intros Hs. pose proof (Next_n_valid n s Hs) as Hn.
  split; [done|]. split; [by rewrite (Next_valid _ Hn)|].
  split; [by rewrite Next_n_S|].
  rewrite (Next_valid _ Hn). cbn [fst].
  apply Next_stays_valid in Hn. unfold valid_state in Hn.
  unfold min, max. rewrite to_uint64_small by (unfold modulus; lia). lia.
Qed.

(** X3: on valid states [Next] is injective and has no fixed point: two
    different states never merge and no state repeats at once. *)
Theorem Next_injective (s s' : Z) :
  valid_state s -> valid_state s' ->
  ((Next s).2 = (Next s').2 -> s = s') /\ (Next s).2 <> s.
Proof.
  intros Hs Hs'. rewrite (Next_valid s Hs), (Next_valid s' Hs'). simpl.
  unfold valid_state, multiplier, modulus in *.
  pose proof (Z.div_mod (s * 48271) 2147483647 ltac:(lia)) as Hd.
  pose proof (Z.div_mod (s' * 48271) 2147483647 ltac:(lia)) as Hd'.
  pose proof (Z.mod_pos_bound (s * 48271) 2147483647 ltac:(lia)) as Hb.
  pose proof (Z.mod_pos_bound (s' * 48271) 2147483647 ltac:(lia)) as Hb'.
  set (r := (s * 48271) mod 2147483647) in *.
  set (r' := (s' * 48271) mod 2147483647) in *.
  set (q := s * 48271 / 2147483647) in *.
  set (q' := s' * 48271 / 2147483647) in *. clearbody r r' q q'.
  split; [intros Heq|intros Heq]; lia.
Qed.

(** X4: on a valid state [ForkState] leaves the cell where [Next] leaves it,
    and returns a child seed in [0, 1999999973); [InitState] accepts every
    such child without consulting the device, storing the child itself, or 1
    when the child is 0. *)
Theorem ForkState_child_normalizes (s dev : Z) :
  valid_state s ->
  let child := (ForkState s).1 in
  0 <= child < 1999999973 /\
  (ForkState s).2 = (Next s).2 /\ valid_state (ForkState s).2 /\
  InitState dev child = Ok (if child =? 0 then 1 else child) /\
  valid_state (if child =? 0 then 1 else child).
Proof.
  intros Hs. cbv zeta. rewrite (ForkState_valid s Hs), (Next_valid s Hs). simpl.
  pose proof (Next_stays_valid s Hs) as Hs1.
  set (s1 := (s * multiplier) mod modulus) in *. clearbody s1.
  pose proof (Z.mod_pos_bound (s1 * 32767) 1999999973 ltac:(lia)) as Hc.
  set (child := (s1 * 32767) mod 1999999973) in *. clearbody child.
  split; [done|]. split; [done|]. split; [done|].
  unfold InitState, NormalizeState, valid_state, modulus.
  destruct (child =? -1) eqn:Hm; [lia|].
  rewrite Z.rem_small by lia.
  destruct (child =? 0) eqn:Hz.
  - split; [done|lia].
  - apply Z.eqb_neq in Hz. split; [|lia].
    destruct (0 <=? child) eqn:Hle; [done|]. apply Z.leb_gt in Hle. lia.
Qed.

End EngineMore.

(** * Further properties of RandomScheduleMutate *)

Section MutateMore.
Context {IRSchedule Cost RandState : Type}.
Context {collab : Collaborators IRSchedule Cost RandState}.

Local Abbreviation State := (SearchState IRSchedule Cost).
Local Abbreviation weight r ir := (NumberApplicable (rule r) ir).

Implicit Types (ir : IRSchedule) (t : gmap Z RuleId).

Lemma greatest_entry_None p l e :
  greatest_entry p l = None -> e ∈ l -> p e.1 = false.
Proof.
  induction l as [|a l IH]; simpl; intros Hl Hin; [by apply elem_of_nil in Hin|].
  destruct (p a.1) eqn:Hpa; [done|].
  apply elem_of_cons in Hin as [->|Hin]; [done|]. by apply IH.
Qed.

(** [--it] leaves the table only when no key lies below. *)
Lemma prev_entry_None (m : gmap Z RuleId) k k' v :
  prev_entry m k = None -> m !! k' = Some v -> k <= k'.
Proof.
  unfold prev_entry. intros Hp Hk.
  apply elem_of_map_to_list in Hk.
  apply (greatest_entry_None _ _ _ Hp) in Hk. simpl in Hk.
  by apply Z.ltb_ge in Hk.
Qed.

(** Rules entered at or above [W] leave the entries below [W] alone, and
    every new key is at or above [W]. *)
Lemma weight_table_lookup_below ir l t W k :
  (forall r, r ∈ l -> 0 <= weight r ir) -> k < W ->
  (weight_table ir l t W).1 !! k = t !! k.
Proof.
  revert t W. induction l as [|a l IH]; intros t W Hnn Hk; simpl; [done|].
  pose proof (Hnn a ltac:(left)).
  rewrite IH; [|intros r Hr; apply Hnn; by right|lia].
  rewrite lookup_insert_ne; [done|lia].
Qed.

Lemma weight_table_new_keys ir l t W k v :
  (forall r, r ∈ l -> 0 <= weight r ir) ->
  (weight_table ir l t W).1 !! k = Some v -> t !! k = Some v \/ W <= k.
Proof.
  intros Hnn Hk. destruct (decide (W <= k)); [by right|left].
  by rewrite weight_table_lookup_below in Hk by (done || lia).
Qed.

(** Once a rule is entered, the key 0 stays in the table. *)
Lemma weight_table_key_zero ir a l :
  is_Some ((weight_table ir (a :: l) ∅ 0).1 !! 0).
Proof.
  simpl.
  destruct (weight_table_lookup_in ir l (<[0 := a]> ∅) (0 + weight a ir) 0 a)
    as (y & Hy & _); [by rewrite lookup_insert_eq|]. by eexists.
Qed.

(** The vector a completed scan leaves. *)
Lemma scan_rules_exact ir kept todo t W rules' t' W' :
  scan_rules ir kept todo t W = Ok (rules', t', W') ->
  rules' = if skip_all_reached ir todo then []
           else kept ++ filter (fun r => Init (rule r) ir <> kApplyAndSkipThisRule)
                               todo.
Proof.
  revert kept t W. induction todo as [|a todo IH]; intros kept t W.
  - simpl. intros [= <- _ _]. by rewrite app_nil_r.
  - cbn [scan_rules skip_all_reached existsb]. fold (skip_all_reached ir todo).
    rewrite filter_cons.
    destruct (decide (Init (rule a) ir = kCannotApply)) as [Hc|Hc].
    { rewrite Hc. rewrite bool_decide_eq_false_2 by done.
      rewrite decide_True by done. simpl.
      intros H%IH. by rewrite <- app_assoc in H. }
    destruct (int_range _); simpl; [|done].
    destruct (decide (Init (rule a) ir = kApplyAndSkipThisRule)) as [Hs|Hs].
    { rewrite Hs. rewrite bool_decide_eq_false_2 by done.
      rewrite decide_False by (intros Hne; by apply Hne). simpl. apply IH. }
    destruct (decide (Init (rule a) ir = kApplyAndSkipAllRules)) as [Ha|Ha].
    { rewrite bool_decide_eq_true_2 by done. simpl. by intros [= <- _ _]. }
    rewrite bool_decide_eq_false_2 by done. rewrite decide_True by done. simpl.
    intros H%IH. by rewrite <- app_assoc in H.
Qed.

(** The only undefined behaviour of the scan is an overflow of the sum. *)
Lemma scan_rules_undefined ir kept todo t W ub :
  scan_rules ir kept todo t W = Undefined ub -> ub = SignedOverflow.
Proof.
  revert kept t W. induction todo as [|a todo IH]; intros kept t W; simpl; [done|].
  destruct (decide _); [apply IH|].
  destruct (int_range _); simpl; [|by intros [= <-]].
  destruct (decide _); [apply IH|]. destruct (decide _); [done|apply IH].
Qed.

(** A round leaves the predicted cost as it was. *)
Lemma RandomScheduleMutate_keeps_cost (state : State) (g : RandState) ret g' :
  RandomScheduleMutate state g = Ok (ret, g') ->
  predicted_cost ret = predicted_cost state.
Proof.
  intros Hrun.
  destruct (RandomScheduleMutate_unfold _ _ _ _ Hrun) as (rules' & _ & Hret).
  by destruct Hret as [(_ & _ & ->)|(_ & _ & s & i & _ & ->)].
Qed.

(** X5: the applicable rules of the state a round returns are exactly these:
    none if any rule of the input answers skip-all, otherwise the input's
    rules without those that answer skip-this, in their order; the
    predicted cost is the input's. *)
Theorem RandomScheduleMutate_rules_after_round (state : State) (g : RandState)
    ret g' :
  RandomScheduleMutate state g = Ok (ret, g') ->
  applicable_rules ret
    = rules_after_round (ir_schedule state) (applicable_rules state) /\
  predicted_cost ret = predicted_cost state.
Proof.
  intros Hrun.
  destruct (RandomScheduleMutate_unfold _ _ _ _ Hrun) as (rules' & Hscan & Hret).
  apply scan_rules_exact in Hscan. simpl in Hscan.
  destruct Hret as [(_ & _ & ->)|(_ & _ & s & i & _ & ->)]; by simpl.
Qed.

(** Sampling never decrements the iterator past the beginning when the
    table holds the key 0 and the value of [rand()] is not negative. *)
Lemma sample_rule_no_begin_decrement t W rnd :
  is_Some (t !! 0) -> 0 <= rnd ->
  sample_rule t W rnd <> Undefined BeginIteratorDecr.
Proof.
  intros [v0 H0] Hrnd. unfold sample_rule.
  destruct (decide (W = 0)); [done|].
  pose proof (Z.rem_nonneg rnd W ltac:(done) Hrnd) as Hs.
  destruct (lower_bound t (Z.rem rnd W)) as [[k v]|] eqn:Hlb; [|done].
  destruct (Z.rem rnd W <? k) eqn:Hlt; [|done].
  apply Z.ltb_lt in Hlt.
  destruct (prev_entry t k) as [[k' v']|] eqn:Hprev; [done|].
  pose proof (prev_entry_None _ _ _ _ Hprev H0). lia.
Qed.

(** X6: as the comment in the code says, the table of a round that entered
    a rule contains the key 0, so [--iter] never leaves the table: a call
    never decrements [begin()]. *)
Theorem RandomScheduleMutate_no_begin_decrement (state : State) (g : RandState) :
  rand_nonneg ->
  (entered_rules (ir_schedule state) (applicable_rules state) <> [] ->
   is_Some ((weight_table (ir_schedule state)
               (entered_rules (ir_schedule state) (applicable_rules state))
               ∅ 0).1 !! 0)) /\
  RandomScheduleMutate state g <> Undefined BeginIteratorDecr.
Proof.
  intros Hrand. split.
  { destruct (entered_rules _ _) as [|a l]; [done|].
    intros _. apply weight_table_key_zero. }
  unfold RandomScheduleMutate.
  destruct (scan_rules _ _ _ _ _) as [[[rules' t] W]| | |] eqn:Hscan;
    simpl; try done.
  - destruct (decide (t = ∅)); [done|].
    pose proof (Hrand g) as Hr. destruct (rand g) as [r g1]. simpl in Hr.
    apply scan_rules_table in Hscan.
    destruct (entered_rules _ _) as [|a l] eqn:He.
    { simpl in Hscan. by injection Hscan as <- _. }
    pose proof (weight_table_key_zero (ir_schedule state) a l) as Hzero.
    rewrite Hscan in Hzero. simpl in Hzero.
    pose proof (sample_rule_no_begin_decrement t W r Hzero Hr) as Hno.
    destruct (sample_rule t W r) as [[s i]| |ub|]; simpl; try done.
    intros [= ->]. done.
  - apply scan_rules_undefined in Hscan. by intros [= ->].
Qed.

End MutateMore.

Section SamplingMore.
Context {IRSchedule Cost RandState : Type}.
Context {collab : Collaborators IRSchedule Cost RandState}.

Local Abbreviation State := (SearchState IRSchedule Cost).
Local Abbreviation weight r ir := (NumberApplicable (rule r) ir).

Implicit Types (ir : IRSchedule) (t : gmap Z RuleId).

Lemma total_weight_app ir l1 l2 :
  total_weight ir (l1 ++ l2) = total_weight ir l1 + total_weight ir l2.
Proof.
  induction l1 as [|a l1 IH]; [done|].
  rewrite <- app_comm_cons, !total_weight_cons, IH. lia.
Qed.

Lemma total_weight_nonneg ir l :
  (forall r, r ∈ l -> 0 <= weight r ir) -> 0 <= total_weight ir l.
Proof.
  induction l as [|a l IH]; intros Hnn; [done|].
  rewrite total_weight_cons. pose proof (Hnn a ltac:(left)).
  assert (0 <= total_weight ir l); [|lia].
  apply IH. intros r Hr. apply Hnn. by right.
Qed.

(** The table of [pre ++ r :: post]: its keys lie at or below the offset of
    [r], or at or above the end of its span; with a positive weight the
    entry at the offset is [r]; if a rule follows, the end of the span is a
    key. *)
Lemma weight_table_span ir pre r post :
  (forall x, x ∈ pre ++ r :: post -> 0 <= weight x ir) ->
  let table := (weight_table ir (pre ++ r :: post) ∅ 0).1 in
  let offset := total_weight ir pre in
  (forall k v, table !! k = Some v ->
     k <= offset \/ offset + weight r ir <= k) /\
  (0 < weight r ir -> table !! offset = Some r) /\
  (post = [] -> table !! offset = Some r) /\
  (post <> [] -> is_Some (table !! (offset + weight r ir))).
Proof.
  intros Hnn table offset. unfold table.
  assert (forall x, x ∈ pre -> 0 <= weight x ir) as Hpre
    by (intros x Hx; apply Hnn, elem_of_app; by left).
  assert (forall x, x ∈ post -> 0 <= weight x ir) as Hpost
    by (intros x Hx; apply Hnn, elem_of_app; right; by right).
  rewrite weight_table_app. cbn [weight_table].
  rewrite weight_table_total, Z.add_0_l. fold offset.
  pose proof (weight_table_inv ir pre ∅ 0 Hpre (table_inv_empty ir)) as [_ Hinv].
  rewrite weight_table_total, Z.add_0_l in Hinv. fold offset in Hinv.
  set (t1 := (weight_table ir pre ∅ 0).1) in *.
  split; [|split; [|split]].
  - intros k v [Hk|Hk]%weight_table_new_keys; [|by right|done].
    left. destruct (decide (offset = k)) as [<-|Hne]; [lia|].
    rewrite lookup_insert_ne in Hk by done.
    by destruct (Hinv k v Hk).
  - intros Hpos. rewrite weight_table_lookup_below by (done || lia).
    by rewrite lookup_insert_eq.
  - intros ->. simpl. by rewrite lookup_insert_eq.
  - intros Hne. destruct post as [|x post]; [done|]. cbn [weight_table].
    destruct (weight_table_lookup_in ir post
                (<[offset + weight r ir := x]> (<[offset := r]> t1))
                (offset + weight r ir + weight x ir)
                (offset + weight r ir) x) as (y & Hy & _).
    { by rewrite lookup_insert_eq. }
    by eexists.
Qed.

(** For a sample index in the span of [r], sampling yields [r] and the
    position within the span, provided a rule follows [r] or the index is the
    offset itself. *)
Lemma sample_rule_span ir pre r post rnd :
  (forall x, x ∈ pre ++ r :: post -> 0 <= weight x ir) ->
  let table := (weight_table ir (pre ++ r :: post) ∅ 0).1 in
  let W := total_weight ir (pre ++ r :: post) in
  let offset := total_weight ir pre in
  let s := Z.rem rnd W in
  offset <= s < offset + weight r ir ->
  (post <> [] \/ s = offset) ->
  sample_rule table W rnd = Ok (r, s - offset).
Proof.
  intros Hnn table W offset s Hs Hlast.
  destruct (weight_table_span ir pre r post Hnn) as (Hkeys & Hat & _ & Hnext).
  fold table offset in Hkeys, Hat, Hnext.
  specialize (Hat ltac:(lia)).
  assert (0 <= offset) as Hoff.
  { apply total_weight_nonneg. intros x Hx. apply Hnn, elem_of_app. by left. }
  assert (0 <= total_weight ir post) as Hpost.
  { apply total_weight_nonneg. intros x Hx. apply Hnn, elem_of_app.
    right. by right. }
  assert (W = offset + weight r ir + total_weight ir post) as HW.
  { unfold W. rewrite total_weight_app, total_weight_cons. fold offset. lia. }
  unfold sample_rule. rewrite decide_False by lia. fold s.
  destruct (decide (s = offset)) as [Heq|Hne].
  - rewrite Heq, (lower_bound_at _ _ _ Hat), Z.ltb_irrefl. done.
  - destruct Hlast as [Hpost_ne|?]; [|done].
    destruct (Hnext Hpost_ne) as [vn Hvn].
    destruct (lower_bound table s) as [[k v]|] eqn:Hlb.
    2:{ pose proof (lower_bound_None _ _ _ _ Hlb Hvn). lia. }
    destruct (lower_bound_Some _ _ _ _ Hlb) as (Hk & Hle & Hmin).
    assert (offset + weight r ir <= k) as Hk_above.
    { destruct (Hkeys k v Hk); lia. }
    assert ((s <? k) = true) as -> by (apply Z.ltb_lt; lia).
    destruct (prev_entry table k) as [[k' v']|] eqn:Hprev.
    2:{ pose proof (prev_entry_None _ _ _ _ Hprev Hat). lia. }
    destruct (prev_entry_Some _ _ _ _ Hprev) as (Hk' & Hlt' & Hmax).
    specialize (Hmax _ _ Hat ltac:(lia)).
    assert (k' = offset) as ->.
    { destruct (Hkeys k' v' Hk') as [?|Habove]; [lia|].
      specialize (Hmin k' v' Hk' ltac:(lia)). lia. }
    rewrite Hat in Hk'. by injection Hk' as <-.
Qed.

(** Sampling dereferences [end()] exactly when the sample index lies past
    the offset of the last rule entered. *)
Lemma sample_rule_end ir pre last rnd :
  (forall x, x ∈ pre ++ [last] -> 0 <= weight x ir) ->
  let table := (weight_table ir (pre ++ [last]) ∅ 0).1 in
  let W := total_weight ir (pre ++ [last]) in
  W <> 0 ->
  sample_rule table W rnd = Undefined EndIteratorDeref <->
  total_weight ir pre < Z.rem rnd W.
Proof.
  intros Hnn table W HW.
  destruct (weight_table_span ir pre last [] Hnn) as (Hkeys & _ & Hat & _).
  fold table in Hkeys, Hat. specialize (Hat eq_refl).
  unfold sample_rule. rewrite decide_False by done.
  destruct (lower_bound table (Z.rem rnd W)) as [[k v]|] eqn:Hlb.
  - destruct (lower_bound_Some _ _ _ _ Hlb) as (Hk & Hle & Hmin).
    split.
    + destruct (_ <? k); [destruct (prev_entry table k) as [[? ?]|]|]; done.
    + intros Hlt. exfalso.
      assert (k <= total_weight ir pre); [|lia].
      unfold table in Hk. rewrite weight_table_app in Hk. simpl in Hk.
      rewrite weight_table_total, Z.add_0_l in Hk.
      destruct (decide (total_weight ir pre = k)) as [<-|Hne]; [lia|].
      rewrite lookup_insert_ne in Hk by done.
      pose proof (weight_table_inv ir pre ∅ 0
                    ltac:(intros x Hx; apply Hnn, elem_of_app; by left)
                    (table_inv_empty ir)) as [_ Hinv'].
      destruct (Hinv' _ _ Hk) as [Hle' _].
      rewrite weight_table_total in Hle'. lia.
  - split; [|done]. intros _.
    pose proof (lower_bound_None _ _ _ _ Hlb Hat). lia.
Qed.

(** A call in terms of the scan and the sampling of the entered rules. *)
Lemma RandomScheduleMutate_sampling (state : State) (g : RandState) :
  let ir := ir_schedule state in
  let entered := entered_rules ir (applicable_rules state) in
  (forall x, x ∈ entered -> 0 <= weight x ir) ->
  total_weight ir entered < 2 ^ 31 -> entered <> [] ->
  RandomScheduleMutate state g =
    '(sample, index) ← sample_rule (weight_table ir entered ∅ 0).1
                                   (total_weight ir entered) (rand g).1;
    Ok (mkSearchState (Apply (rule sample) ir index) (predicted_cost state)
                      (rules_after_round ir (applicable_rules state)),
        (rand g).2).
Proof.
  intros ir entered Hnn Hsum Hne.
  destruct (scan_rules_defined ir [] (applicable_rules state) ∅ 0)
    as [rules' Hscan]; [done|lia|by rewrite Z.add_0_l|].
  fold entered in Hscan.
  pose proof (scan_rules_exact _ _ _ _ _ _ _ _ Hscan) as Hrules.
  simpl in Hrules. fold (rules_after_round ir (applicable_rules state)) in Hrules.
  unfold RandomScheduleMutate. fold ir. rewrite Hscan. simpl.
  rewrite decide_False by (by apply weight_table_nonempty; left).
  rewrite weight_table_total, Z.add_0_l.
  destruct (rand g) as [r g1]. simpl. by rewrite Hrules.
Qed.

Lemma sample_rule_cases t W rnd :
  W <> 0 ->
  sample_rule t W rnd = Undefined EndIteratorDeref \/
  sample_rule t W rnd = Undefined BeginIteratorDecr \/
  exists r index, sample_rule t W rnd = Ok (r, index).
Proof.
  intros HW. unfold sample_rule. rewrite decide_False by done.
  destruct (lower_bound t _) as [[k v]|]; [|by left].
  destruct (_ <? k); [|right; right; by eexists _, _].
  destruct (prev_entry t k) as [[k' v']|]; [|right; by left].
  right; right; by eexists _, _.
Qed.

(** X7: with weights that are counts and a non-negative [rand()], the
    outcome of a round that entered rules, the last of them [last], is
    decided by the total weight and the sample index: the modulo is undefined
    exactly when the total is 0; [end()] is dereferenced exactly when the
    index lies past the offset of [last]; the call returns exactly in the
    remaining case. *)
Theorem RandomScheduleMutate_outcome (state : State) (g : RandState)
    pre last :
  let ir := ir_schedule state in
  let entered := entered_rules ir (applicable_rules state) in
  let W := total_weight ir entered in
  let s := Z.rem (rand g).1 W in
  entered = pre ++ [last] ->
  (forall x, x ∈ entered -> 0 <= weight x ir) -> W < 2 ^ 31 -> rand_nonneg ->
  (RandomScheduleMutate state g = Undefined ModuloByZero <-> W = 0) /\
  (RandomScheduleMutate state g = Undefined EndIteratorDeref <->
   W <> 0 /\ total_weight ir pre < s) /\
  ((exists ret g', RandomScheduleMutate state g = Ok (ret, g')) <->
   W <> 0 /\ s <= total_weight ir pre).
Proof.
  intros ir entered W s He Hnn Hsum Hrand.
  rewrite RandomScheduleMutate_sampling;
    [|done|done|fold ir entered; rewrite He; by destruct pre].
  fold ir entered W.
  assert (is_Some ((weight_table ir entered ∅ 0).1 !! 0)) as Hzero.
  { destruct entered as [|a l] eqn:Hent; [by destruct pre|].
    apply weight_table_key_zero. }
  pose proof (sample_rule_no_begin_decrement _ W _ Hzero (Hrand g)) as Hnb.
  destruct (decide (W = 0)) as [HW|HW].
  - unfold sample_rule in *. rewrite decide_True by done. simpl.
    split; [done|]. split; [split; [done|by intros [? _]]|].
    split; [by intros (? & ? & ?)|by intros [? _]].
  - pose proof (sample_rule_end ir pre last (rand g).1) as Hend.
    rewrite <- He in Hend. fold W s in Hend.
    specialize (Hend Hnn HW).
    destruct (sample_rule_cases (weight_table ir entered ∅ 0).1 W (rand g).1 HW)
      as [Hc|[Hc|(r & i & Hc)]]; [|done|].
    + rewrite Hc in *. simpl.
      pose proof (proj1 Hend eq_refl).
      split; [split; [done|by intros ?]|].
      split; [done|]. split; [by intros (? & ? & ?)|intros [_ ?]; lia].
    + rewrite Hc in *. simpl.
      assert (~ total_weight ir pre < s) by (intros Hlt%Hend; done).
      split; [split; [done|by intros ?]|].
      split; [split; [done|intros [_ ?]; done]|].
      split; [intros _; split; [done|lia]|intros _; by eexists _, _].
Qed.

(** X8: with weights that are counts, a sample index in the span of an
    entered rule [r] makes the round apply [r] at the position of the index
    within the span, provided [r] is not the last rule entered or the index
    is the first of the span; the state returned carries the input's cost
    and the rules the round leaves. *)
Theorem RandomScheduleMutate_selects_span (state : State) (g : RandState)
    pre r post :
  let ir := ir_schedule state in
  let entered := entered_rules ir (applicable_rules state) in
  let W := total_weight ir entered in
  let offset := total_weight ir pre in
  let s := Z.rem (rand g).1 W in
  entered = pre ++ r :: post ->
  (forall x, x ∈ entered -> 0 <= weight x ir) -> W < 2 ^ 31 ->
  offset <= s < offset + weight r ir ->
  (post <> [] \/ s = offset) ->
  RandomScheduleMutate state g =
    Ok (mkSearchState (Apply (rule r) ir (s - offset)) (predicted_cost state)
                      (rules_after_round ir (applicable_rules state)),
        (rand g).2).
Proof.
  intros ir entered W offset s He Hnn Hsum Hs Hlast.
  rewrite RandomScheduleMutate_sampling;
    [|done|done|fold ir entered; rewrite He; by destruct pre].
  fold ir entered W. unfold s, W in *. clear s W.
  rewrite He in *. by rewrite (sample_rule_span ir pre r post).
Qed.

End SamplingMore.

(** * GetScheduleMutate and GetRandomInitialSketch *)

Section SketchMore.
Context {IRSchedule Cost RandState : Type}.
Context {collab : Collaborators IRSchedule Cost RandState}.

Local Abbreviation State := (SearchState IRSchedule Cost).

(** X9: [GetScheduleMutate] returns exactly when [RandomScheduleMutate]
    does, with the same program, rules and state of [rand()]; the predicted
    cost of the state returned is the model's prediction for the returned
    program when the flag is set, and otherwise the cost of the input state,
    which the mutation leaves in place. *)
Theorem GetScheduleMutate_cost (use_cost_model : bool)
    (Predict : IRSchedule -> Cost) (state : State) (g : RandState) :
  (forall ret g',
     GetScheduleMutate use_cost_model Predict state g = Ok (ret, g') ->
     exists mutated,
       RandomScheduleMutate state g = Ok (mutated, g') /\
       ir_schedule ret = ir_schedule mutated /\
       applicable_rules ret = applicable_rules mutated /\
       predicted_cost ret = if use_cost_model then Predict (ir_schedule ret)
                            else predicted_cost state) /\
  (forall mutated g',
     RandomScheduleMutate state g = Ok (mutated, g') ->
     exists ret, GetScheduleMutate use_cost_model Predict state g = Ok (ret, g')) /\
  (use_cost_model = false ->
   GetScheduleMutate use_cost_model Predict state g
   = RandomScheduleMutate state g).
Proof.
  unfold GetScheduleMutate. cbv zeta. cbn iota.
  split; [|split].
  - intros ret g'.
    destruct (RandomScheduleMutate state g) as [[m g1]| | |] eqn:Hrun;
      simpl; try done.
    pose proof (RandomScheduleMutate_keeps_cost _ _ _ _ Hrun) as Hcost.
    destruct use_cost_model; intros [= <- <-]; exists m; by simpl.
  - intros m g' ->. simpl. destruct use_cost_model; by eexists.
  - intros ->. by destruct (RandomScheduleMutate state g) as [[m g1]| | |].
Qed.

(** X10: whenever [GetRandomInitialSketch] returns, the number of sketches
    is [num] converted to [size_t] (for a negative [num], 2^64 + num), and
    every sketch carries a subsequence of the registry; for [num = 0] it
    returns nothing and leaves [rand()] alone. *)
Theorem GetRandomInitialSketch_count (ss : SearchSpace IRSchedule) (num : Z)
    (g : RandState) :
  (forall res g',
     GetRandomInitialSketch ss num g = Ok (res, g') ->
     Z.of_nat (length res) = size_t_of_int num /\
     Forall (fun st : State =>
               applicable_rules st `sublist_of` sketch_rules_ ss) res) /\
  GetRandomInitialSketch ss 0 g = Ok ([], g).
Proof.
  split; [|done]. intros res g' Hrun. unfold GetRandomInitialSketch in Hrun.
  apply (sketch_loop_spec (fun _ => True)) in Hrun as [Hlen Hall]; [|done..].
  split.
  - rewrite Hlen. simpl. apply Z2Nat.id. unfold size_t_of_int.
    apply Z.mod_pos_bound. lia.
  - eapply Forall_impl; [apply Hall; constructor|]. by intros st [? _].
Qed.

Lemma RandomScheduleMutate_idle (state : State) (g : RandState) :
  (forall r, r ∈ applicable_rules state ->
     Init (rule r) (ir_schedule state) = kCannotApply) ->
  RandomScheduleMutate state g = Ok (state, g).
Proof.
  intros Hall. unfold RandomScheduleMutate.
  rewrite (scan_rules_cannot _ [] _ ∅ 0 Hall). simpl.
  rewrite decide_True by done. by destruct state.
Qed.

Lemma mutate_loop_idle n (state : State) (g : RandState) :
  (forall r, r ∈ applicable_rules state ->
     Init (rule r) (ir_schedule state) = kCannotApply) ->
  mutate_loop n state g = Ok (state, g).
Proof.
  intros Hall. induction n as [|n IH]; simpl; [done|].
  rewrite RandomScheduleMutate_idle by done. simpl.
  by destruct (decide (applicable_rules state = [])).
Qed.

Lemma sketch_loop_copies (ss : SearchSpace IRSchedule) n result (g : RandState) :
  let init : State := mkSearchState (init_schedule ss) NOT_INIT_COST
                                    (sketch_rules_ ss) in
  mutate_loop (Z.to_nat (init_sketch_random_depth_ ss)) init g = Ok (init, g) ->
  sketch_loop ss n result g = Ok (result ++ replicate n init, g).
Proof.
  intros init Hm. revert result. induction n as [|n IH]; intros result; simpl.
  - by rewrite app_nil_r.
  - fold init. rewrite Hm. simpl. rewrite IH. by rewrite <- app_assoc.
Qed.

(** X11: for a count [num] that is not negative, when the depth bound is
    not positive, or no registered rule can apply to the initial program,
    the result is [num] copies of the initial state with the full registry,
    and [rand()] is never called. *)
Theorem GetRandomInitialSketch_initial_copies (ss : SearchSpace IRSchedule)
    (num : Z) (g : RandState) :
  0 <= num < 2 ^ 31 ->
  init_sketch_random_depth_ ss <= 0 \/
  (forall r, r ∈ sketch_rules_ ss ->
     Init (rule r) (init_schedule ss) = kCannotApply) ->
  GetRandomInitialSketch ss num g
  = Ok (replicate (Z.to_nat num)
          (mkSearchState (init_schedule ss) NOT_INIT_COST (sketch_rules_ ss)),
        g).
Proof.
  intros Hnum Hidle. unfold GetRandomInitialSketch, size_t_of_int.
  rewrite Z.mod_small by lia.
  rewrite sketch_loop_copies; [done|].
  destruct Hidle as [Hdepth|Hcannot].
  - by rewrite Z2Nat.nonpos.
  - by apply mutate_loop_idle.
Qed.

End SketchMore.

(** * Further properties of CollectStateTransfer *)

Section TransferMore.
Context {IRSchedule Cost RandState : Type}.
Context {collab : Collaborators IRSchedule Cost RandState}.

Local Abbreviation State := (SearchState IRSchedule Cost).

Implicit Types (host : HostEntropy) (layer cur next : list State).

(** With the traversal sampler and a bound [steps <> 0], the loop draws the
    rules in order until the step counter reaches the bound. *)
Lemma transfer_loop_traversal_steps host fuel x rules block steps pbr p
    step layer np :
  steps <> 0 -> (length rules <= fuel)%nat ->
  transfer_loop host fuel (NextRule (TraversalRuleSampler x)) rules block steps
                pbr p step layer np
  = Ok (traverse_rules host block pbr p
                       (take (Z.to_nat (steps - step)) rules) layer np).
Proof.
  intros Hsteps. revert fuel step layer np.
  induction rules as [|r rules IH]; intros fuel step layer np Hfuel.
  - rewrite take_nil. destruct fuel; simpl; by destruct (_ || _).
  - destruct fuel as [|fuel]; [simpl in Hfuel; lia|].
    cbn [transfer_loop].
    assert ((steps =? 0) = false) as -> by (by apply Z.eqb_neq).
    rewrite orb_false_r. destruct (step <? steps) eqn:Hlt.
    + apply Z.ltb_lt in Hlt. cbn [NextRule TraversalRuleSampler].
      replace (Z.to_nat (steps - step)) with (S (Z.to_nat (steps - (step + 1))))
        by lia.
      cbn [take traverse_rules].
      destruct (transfer_layer host (rule r) block pbr p layer np)
        as [[kept new_states] np'].
      apply IH. simpl in Hfuel. lia.
    + apply Z.ltb_ge in Hlt. by rewrite Z2Nat.nonpos by lia.
Qed.

(** X12: with the traversal sampler, [steps] bounds the number of rules
    applied only when it is positive: 0 applies every rule, a negative value
    none, and a positive value the first [steps] rules. *)
Theorem CollectStateTransfer_traversal_steps host (fuel : nat) (state : State)
    block rules (steps : Z) pbr p np :
  (length rules <= fuel)%nat ->
  CollectStateTransfer host fuel state block (TraversalRuleSampler rules) steps
                       pbr p np
  = Ok (traverse_rules host block pbr p
          (if steps =? 0 then rules else take (Z.to_nat steps) rules)
          [state] np).
Proof.
  intros Hfuel. destruct (steps =? 0) eqn:Hz.
  - apply Z.eqb_eq in Hz. subst steps.
    by apply CollectStateTransfer_traversal.
  - apply Z.eqb_neq in Hz. unfold CollectStateTransfer.
    rewrite transfer_loop_traversal_steps by done.
    by rewrite Z.sub_0_r.
Qed.




(** Under a policy that never prunes, a rule keeps the whole layer. *)
Lemma transfer_layer_never_prune host r block pbr p layer np :
  (forall type np, type <> kCannotApply ->
     (exists st : State, type = AnalyseApplyType r st block) ->
     (need_prune host pbr p type np).1 = false) ->
  (transfer_layer host r block pbr p layer np).1.1 = layer.
Proof.
  intros Hnp. revert np. induction layer as [|st layer IH]; intros np;
    cbn [transfer_layer]; [done|].
  destruct (negb (CheckBlockExist st block)).
  { specialize (IH np). destruct (transfer_layer _ _ _ _ _ layer np) as [[k n] ?].
    simpl in *. by rewrite IH. }
  destruct (decide (AnalyseApplyType r st block = kCannotApply)) as [|Hc].
  { specialize (IH np). destruct (transfer_layer _ _ _ _ _ layer np) as [[k n] ?].
    simpl in *. by rewrite IH. }
  pose proof (Hnp _ np Hc (ex_intro _ st eq_refl)) as Hno.
  destruct (need_prune host pbr p (AnalyseApplyType r st block) np) as [b np1].
  simpl in Hno. subst b. specialize (IH np1).
  destruct (transfer_layer _ _ _ _ _ layer np1) as [[k n] ?].
  simpl in *. by rewrite IH.
Qed.

(** X14: the input state survives every step when nothing is pruned: under
    rule pruning when no rule answers skip-all, and under random pruning when
    the probability is not positive. The result then starts with the input
    state. *)
Theorem CollectStateTransfer_never_prunes host (fuel : nat) (state : State)
    block (rule_sampler : RuleSampler) (steps : Z) pbr p np res np' :
  (pbr = true /\ never_skip_all) \/
  (pbr = false /\ (p <= 0)%Q /\ unit_interval_draws host) ->
  CollectStateTransfer host fuel state block rule_sampler steps pbr p np
    = Ok (res, np') ->
  exists extra, res = state :: extra.
Proof.
  intros Hpolicy.
  assert (forall r type np, type <> kCannotApply ->
            (exists st : State, type = AnalyseApplyType (rule r) st block) ->
            (need_prune host pbr p type np).1 = false) as Hnp.
  { intros r type np0 _ [st ->]. unfold need_prune.
    destruct Hpolicy as [[-> Hns]|(-> & Hp & Hdraw)]; simpl.
    - by rewrite bool_decide_eq_false_2 by apply Hns.
    - destruct (Hdraw np0) as [H0 _].
      assert (Qle_bool p (prune_draw host np0) = true) as ->; [|done].
      apply Qle_bool_iff. exact (Qle_trans _ _ _ Hp H0). }
  unfold CollectStateTransfer.
  assert (exists extra, [state] = state :: extra) as Hinv by (by exists []).
  revert Hinv.
  generalize [state] at 1 2. generalize (rs_cur rule_sampler) 0 np.
  intros sampler step np0 layer. revert sampler step np0 layer.
  induction fuel as [|fuel IH]; intros sampler step np0 layer Hinv;
    cbn [transfer_loop].
  - destruct (_ || _); [|by intros [= <- <-]].
    destruct (NextRule rule_sampler sampler) as [[r|] sampler'];
      [done|by intros [= <- <-]].
  - destruct (_ || _); [|by intros [= <- <-]].
    destruct (NextRule rule_sampler sampler) as [[r|] sampler'];
      [|by intros [= <- <-]].
    pose proof (transfer_layer_never_prune host (rule r) block pbr p layer np0
                  (Hnp r)) as Hk.
    destruct (transfer_layer host (rule r) block pbr p layer np0)
      as [[k n] np1]. simpl in Hk. subst k.
    apply IH. destruct Hinv as [extra ->]. by exists (extra ++ n).
Qed.

End TransferMore.

(** * Further properties of the sketch generators *)

Section GeneratorsMore.
Context {IRSchedule Cost RandState : Type}.
Context {collab : Collaborators IRSchedule Cost RandState}.

Local Abbreviation State := (SearchState IRSchedule Cost).

Implicit Types (host : HostEntropy) (layer cur next : list State).








(** The loop of [GetInitialSketch] keeps the result within [num] states. *)
Lemma initial_sketch_loop_count (ss : SearchSpace IRSchedule) host fuel0 fuel
    (num : Z) strategy (result : list State) ns np res ns' np' :
  Z.of_nat (length result) <= num ->
  initial_sketch_loop ss host fuel0 fuel num strategy result ns np
    = Ok (res, ns', np') ->
  Z.of_nat (length res) = num.
Proof.
  revert result ns np. induction fuel as [|fuel IH]; intros result ns np Hle;
    cbn [initial_sketch_loop].
  - destruct (_ <? num) eqn:Hlt; [done|].
    apply Z.ltb_ge in Hlt. intros [= <- _ _]. lia.
  - destruct (_ <? num) eqn:Hlt.
    + apply Z.ltb_lt in Hlt.
      match goal with
      | |- context [mbind _ ?m] => destruct m as [[[sketchs ns1] np1]| | |]
      end; simpl; try done.
      apply IH.
      by destruct (push_sketches_spec num result (rev sketchs) Hlt) as (? & _).
    + apply Z.ltb_ge in Hlt. intros [= <- _ _]. lia.
Qed.

(** X16: whenever [GetInitialSketch] returns, it returns exactly [num]
    states ([num] converted to [size_t]); for [num = 0] it returns nothing
    without looking at the strategy, and for any other [num] an unknown
    strategy aborts before any sketch is generated. *)
Theorem GetInitialSketch_count (ss : SearchSpace IRSchedule) host
    (fuel : nat) (num : Z) strategy (ns np : nat) :
  (forall res ns' np',
     GetInitialSketch ss host fuel num strategy ns np = Ok (res, ns', np') ->
     Z.of_nat (length res) = size_t_of_int num) /\
  GetInitialSketch ss host fuel 0 strategy ns np = Ok ([], ns, np) /\
  (size_t_of_int num <> 0 -> fuel <> O ->
   strategy <> "rule_prune"%string -> strategy <> "random_prune"%string ->
   GetInitialSketch ss host fuel num strategy ns np = Fatal strategy_msg).
Proof.
  split; [|split].
  - intros res ns' np'. apply initial_sketch_loop_count. simpl.
    unfold size_t_of_int. apply Z.mod_pos_bound. lia.
  - unfold GetInitialSketch. by destruct fuel.
  - intros Hnum Hfuel Hs1 Hs2. unfold GetInitialSketch.
    destruct fuel as [|fuel]; [done|]. cbn [initial_sketch_loop length].
    assert (0 <= size_t_of_int num < 2 ^ 64) as Hb
      by (unfold size_t_of_int; apply Z.mod_pos_bound; lia).
    assert ((Z.of_nat 0 <? size_t_of_int num) = true) as ->
      by (apply Z.ltb_lt; simpl; lia).
    by rewrite !decide_False by done.
Qed.

Lemma initial_sketch_loop_starved (ss : SearchSpace IRSchedule) host fuel0
    fuel (num : Z) strategy ns np :
  0 < num ->
  (forall ns np,
     (if decide (strategy = "rule_prune"%string) then
        sketchs ← GetRulePrunedInitialSketch ss host fuel0; Ok (sketchs, ns, np)
      else if decide (strategy = "random_prune"%string) then
        GetRandomPrunedInitialSketch ss host fuel0 ns np
      else Fatal strategy_msg) = Ok ([], ns, np)) ->
  initial_sketch_loop ss host fuel0 fuel num strategy [] ns np = OutOfFuel.
Proof.
  intros Hnum Hgen. induction fuel as [|fuel IH]; cbn [initial_sketch_loop length].
  - by assert ((Z.of_nat 0 <? num) = true) as -> by (apply Z.ltb_lt; simpl; lia).
  - assert ((Z.of_nat 0 <? num) = true) as -> by (apply Z.ltb_lt; simpl; lia).
    rewrite Hgen. simpl. apply IH.
Qed.

(** X17: when the generator has nothing to return, [GetInitialSketch] never
    returns for [num <> 0]: with the rule-pruned strategy on a program
    without blocks, and with the random-pruned strategy under a depth bound
    that is not positive, the loop exhausts every iteration budget. *)
Theorem GetInitialSketch_starves (ss : SearchSpace IRSchedule) host
    (fuel : nat) (num : Z) (ns np : nat) :
  size_t_of_int num <> 0 -> removelast (sketch_rules_ ss) <> [] ->
  (GetAllBlocks (init_schedule ss) = [] ->
   GetRulePrunedInitialSketch ss host fuel = Ok [] /\
   GetInitialSketch ss host fuel num "rule_prune" ns np = OutOfFuel) /\
  (init_sketch_random_depth_ ss <= 0 ->
   GetRandomPrunedInitialSketch ss host fuel ns np = Ok ([], ns, np) /\
   GetInitialSketch ss host fuel num "random_prune" ns np = OutOfFuel).
Proof.
  intros Hnum Hrules.
  assert (0 < size_t_of_int num) as Hpos.
  { pose proof (Z.mod_pos_bound num (2 ^ 64) ltac:(lia)).
    unfold size_t_of_int in *. lia. }
  split.
  - intros Hblocks.
    assert (forall f, GetRulePrunedInitialSketch ss host f = Ok []) as Hgen.
    { intros f. unfold GetRulePrunedInitialSketch, BlockSampler_Make.
      rewrite Hblocks. rewrite decide_True by done. cbn [mbind outcome_bind].
      rewrite bool_decide_eq_false_2 by (by apply removelast_nonempty).
      rewrite bool_decide_eq_false_2 by done. by destruct f. }
    split; [done|]. apply initial_sketch_loop_starved; [done|].
    intros ns0 np0. rewrite decide_True by done. by rewrite Hgen.
  - intros Hdepth.
    assert (forall f ns np,
              GetRandomPrunedInitialSketch ss host f ns np = Ok ([], ns, np))
      as Hgen.
    { intros f ns0 np0. unfold GetRandomPrunedInitialSketch, BlockSampler_Make.
      rewrite decide_False by done. rewrite decide_True by done.
      cbn [mbind outcome_bind].
      rewrite bool_decide_eq_false_2 by (by apply removelast_nonempty).
      rewrite bool_decide_eq_false_2 by done.
      assert ((0 <? init_sketch_random_depth_ ss) = false) as Hlt
        by (apply Z.ltb_ge; lia).
      destruct f; cbn [random_pruned_loop];
        destruct (NextBlock _ _) as [b s']; rewrite Hlt;
        by destruct (decide (b = ""%string)). }
    split; [done|]. apply initial_sketch_loop_starved; [done|].
    intros ns0 np0. rewrite decide_False by done. rewrite decide_True by done.
    apply Hgen.
Qed.

End GeneratorsMore.

Section InitialSketchMore.
Context {IRSchedule Cost RandState : Type}.
Context {collab : Collaborators IRSchedule Cost RandState}.

Local Abbreviation State := (SearchState IRSchedule Cost).

Implicit Types (host : HostEntropy) (layer cur next : list State).

(** The loop that moves sketches into the result appends them and cuts the
    result at [num] states. *)
Lemma push_sketches_take (num : Z) (result it : list State) :
  Z.of_nat (length result) < num ->
  push_sketches num result it = take (Z.to_nat num) (result ++ it).
Proof.
  revert result. induction it as [|s it IH]; intros result Hlt; simpl.
  - rewrite app_nil_r. rewrite take_ge; [done|lia].
  - rewrite length_app. simpl.
    destruct (Z.of_nat (length result + 1) =? num) eqn:Heq.
    + apply Z.eqb_eq in Heq.
      rewrite (cons_middle s result it), app_assoc.
      rewrite take_app_le by (rewrite length_app; simpl; lia).
      rewrite take_ge; [done|rewrite length_app; simpl; lia].
    + apply Z.eqb_neq in Heq. rewrite IH by (rewrite length_app; simpl; lia).
      by rewrite <- app_assoc.
Qed.

Lemma concat_replicate_snoc {A} k (l : list A) :
  concat (replicate (S k) l) = concat (replicate k l) ++ l.
Proof.
  induction k as [|k IH]; [simpl; by rewrite app_nil_r|].
  change (concat (replicate (S (S k)) l))
    with (l ++ concat (replicate (S k) l)).
  rewrite IH at 1. by rewrite app_assoc.
Qed.

Lemma concat_replicate_length {A} k (l : list A) :
  length (concat (replicate k l)) = (k * length l)%nat.
Proof.
  induction k as [|k IH]; simpl; [done|]. rewrite length_app, IH. lia.
Qed.

Lemma take_concat_replicate_stable {A} n k k' (l : list A) :
  (k <= k')%nat -> (n <= length (concat (replicate k l)))%nat ->
  take n (concat (replicate k' l)) = take n (concat (replicate k l)).
Proof.
  intros Hk Hn. induction Hk as [|k' Hk IH]; [done|].
  rewrite concat_replicate_snoc, take_app_le; [done|].
  rewrite !concat_replicate_length in *. nia.
Qed.

Lemma initial_sketch_loop_cycle (ss : SearchSpace IRSchedule) host fuel0
    frontier ns np (n : nat) :
  GetRulePrunedInitialSketch ss host fuel0 = Ok frontier -> frontier <> [] ->
  forall fuel k,
    (k <= n)%nat -> (n - k <= fuel)%nat ->
    initial_sketch_loop ss host fuel0 fuel (Z.of_nat n) "rule_prune"
                        (take n (concat (replicate k (rev frontier)))) ns np
    = Ok (take n (concat (replicate n (rev frontier))), ns, np).
Proof.
  intros Hgen Hne.
  assert (0 < length (rev frontier))%nat as Hlen.
  { rewrite length_rev. destruct frontier; [done|simpl; lia]. }
  induction fuel as [|fuel IH]; intros k Hk Hfuel; cbn [initial_sketch_loop].
  - assert (k = n) as -> by lia.
    rewrite length_take, concat_replicate_length.
    assert ((Z.of_nat (n `min` (n * length (rev frontier))) <? Z.of_nat n) = false)
      as -> by (apply Z.ltb_ge; nia).
    done.
  - rewrite length_take, concat_replicate_length.
    destruct (Z.of_nat (n `min` (k * length (rev frontier))) <? Z.of_nat n) eqn:Hlt.
    + apply Z.ltb_lt in Hlt.
      assert (k * length (rev frontier) < n)%nat as Hshort by lia.
      assert (k < n)%nat as Hkn by nia.
      rewrite decide_True by done. rewrite Hgen. cbn [mbind outcome_bind].
      rewrite take_ge by (rewrite concat_replicate_length; lia).
      rewrite push_sketches_take
        by (rewrite concat_replicate_length; lia).
      rewrite Nat2Z.id, <- concat_replicate_snoc.
      apply IH; lia.
    + apply Z.ltb_ge in Hlt. f_equal. f_equal. f_equal. symmetry.
      apply take_concat_replicate_stable; [done|].
      rewrite concat_replicate_length. lia.
Qed.

(** X18: with the rule-pruned strategy, where every call of the generator
    returns the same frontier, [GetInitialSketch] returns the first [num]
    states of the reversed frontier repeated over and over: the last states
    of the frontier come first, and the frontier is reused as often as it
    takes to reach [num] states. *)
Theorem GetInitialSketch_rule_prune_cycle (ss : SearchSpace IRSchedule) host
    (fuel : nat) (num : Z) (ns np : nat) frontier :
  GetRulePrunedInitialSketch ss host fuel = Ok frontier -> frontier <> [] ->
  0 <= num < 2 ^ 31 -> (Z.to_nat num <= fuel)%nat ->
  GetInitialSketch ss host fuel num "rule_prune" ns np
  = Ok (take (Z.to_nat num)
             (concat (replicate (Z.to_nat num) (rev frontier))), ns, np).
Proof.
  intros Hgen Hne Hnum Hfuel. unfold GetInitialSketch, size_t_of_int.
  rewrite Z.mod_small by lia.
  rewrite <- (Z2Nat.id num) at 1 by lia.
  pose proof (initial_sketch_loop_cycle ss host fuel frontier ns np
                (Z.to_nat num) Hgen Hne fuel 0%nat ltac:(lia) ltac:(lia)) as Hloop.
  cbn [replicate concat] in Hloop. by rewrite take_nil in Hloop.
Qed.

End InitialSketchMore.

(** * Further runs on concrete inputs *)

Lemma c_rand_nonneg_any rules : rand_nonneg (collab := collaborators rules).
Proof.
  intros g. simpl. unfold c_rand. simpl.
  apply Z.mod_pos_bound. lia.
Qed.

Lemma NormalizeState_sound_idempotent_witness :
  LinearRandomEngine.valid_state 3 /\
  LinearRandomEngine.NormalizeState 7 3 = Ok 3.
Proof.
  apply (NormalizeState_sound_idempotent 0 7 2147483650 3). reflexivity.
Defined.

Lemma Next_n_stays_valid_witness :
  LinearRandomEngine.valid_state (LinearRandomEngine.Next_n 3 42).
Proof.
  apply (Next_n_stays_valid 3 42).
  unfold LinearRandomEngine.valid_state, LinearRandomEngine.modulus. lia.
Defined.

Lemma Next_injective_witness :
  (LinearRandomEngine.Next 1).2 <> 1.
Proof.
  apply (Next_injective 1 2);
    unfold LinearRandomEngine.valid_state, LinearRandomEngine.modulus; lia.
Defined.

Lemma ForkState_child_normalizes_witness :
  LinearRandomEngine.InitState 0 (LinearRandomEngine.ForkState 1305499371).1
  = Ok (if (LinearRandomEngine.ForkState 1305499371).1 =? 0 then 1
        else (LinearRandomEngine.ForkState 1305499371).1).
Proof.
  apply (ForkState_child_normalizes 1305499371 0).
  unfold LinearRandomEngine.valid_state, LinearRandomEngine.modulus. lia.
Defined.

Lemma RandomScheduleMutate_rules_after_round_witness :
  exists ret g',
    RandomScheduleMutate (collab := collaborators mixed_rules)
                         (registry_state one_block) 1 = Ok (ret, g') /\
    applicable_rules ret
      = rules_after_round (collab := collaborators mixed_rules) one_block
                          [0; 1; 2; 3]%nat.
Proof.
  pose (o := RandomScheduleMutate (collab := collaborators mixed_rules)
                                  (registry_state one_block) 1).
  assert (RandomScheduleMutate (collab := collaborators mixed_rules)
                               (registry_state one_block) 1 = o) as Hrun
    by reflexivity.
  vm_compute in o. subst o.
  eexists _, _. split; [exact Hrun|].
  exact (proj1 (RandomScheduleMutate_rules_after_round
                  (collab := collaborators mixed_rules) _ _ _ _ Hrun)).
Defined.

Lemma RandomScheduleMutate_no_begin_decrement_witness :
  RandomScheduleMutate (collab := collaborators mixed_rules)
                       (registry_state one_block) 1
  <> Undefined BeginIteratorDecr.
Proof.
  apply (RandomScheduleMutate_no_begin_decrement
           (collab := collaborators mixed_rules)).
  exact (c_rand_nonneg_any mixed_rules).
Defined.

Lemma RandomScheduleMutate_outcome_witness :
  RandomScheduleMutate (collab := collaborators wide_rules)
                       (registry_state one_block) 1
  = Undefined EndIteratorDeref.
Proof.
  destruct (RandomScheduleMutate_outcome
              (collab := collaborators wide_rules)
              (registry_state one_block) 1 [] 1%nat) as (_ & Hend & _).
  - reflexivity.
  - intros x _. destruct x as [|[|[|[|x]]]]; simpl; lia.
  - vm_compute. reflexivity.
  - exact (c_rand_nonneg_any wide_rules).
  - apply Hend. split; [vm_compute; discriminate|vm_compute; reflexivity].
Defined.

Lemma RandomScheduleMutate_selects_span_witness :
  RandomScheduleMutate (collab := collaborators mixed_rules)
                       (registry_state one_block) 1
  = Ok (mkSearchState (rewrite one_block (Applied 1%nat 2)) None
                      [1; 2; 3]%nat, 1103527590).
Proof.
  apply (RandomScheduleMutate_selects_span
           (collab := collaborators mixed_rules)
           (registry_state one_block) 1 [0%nat] 1%nat [3%nat]).
  - reflexivity.
  - intros x _. destruct x as [|[|[|[|x]]]]; simpl; lia.
  - vm_compute. reflexivity.
  - vm_compute. split; [discriminate|reflexivity].
  - left. discriminate.
Defined.

Lemma GetScheduleMutate_cost_witness :
  exists ret g',
    GetScheduleMutate (collab := collaborators unit_rules) true rewrite_count
                      (registry_state one_block) 1 = Ok (ret, g') /\
    predicted_cost ret = rewrite_count (ir_schedule ret).
Proof.
  destruct (GetScheduleMutate_cost (collab := collaborators unit_rules)
              true rewrite_count (registry_state one_block) 1)
    as (Hcost & Hret & _).
  destruct (RandomScheduleMutate_unit_total
              (collab := collaborators unit_rules) (registry_state one_block) 1
              unit_rules_unit_weights c_rand_nonneg)
    as (m & g' & Hm); [simpl; lia|].
  destruct (Hret m g' Hm) as [ret Hrun].
  exists ret, g'. split; [exact Hrun|].
  destruct (Hcost ret g' Hrun) as (m' & _ & _ & _ & Hc). exact Hc.
Defined.

Lemma GetRandomInitialSketch_count_witness :
  exists res g',
    GetRandomInitialSketch (collab := collaborators unit_rules)
                           (space one_block) 2 1 = Ok (res, g') /\
    Z.of_nat (length res) = 2.
Proof.
  destruct (sketch_loop_unit_total (collab := collaborators unit_rules)
              (space one_block) 2 [] 1 unit_rules_unit_weights c_rand_nonneg)
    as (res & g' & Hrun); [simpl; lia|].
  exists res, g'. split; [exact Hrun|].
  destruct (GetRandomInitialSketch_count (collab := collaborators unit_rules)
              (space one_block) 2 1) as [Hcount _].
  exact (proj1 (Hcount res g' Hrun)).
Defined.

Lemma GetRandomInitialSketch_initial_copies_witness :
  GetRandomInitialSketch (collab := collaborators idle_rules)
                         (space one_block) 2 1
  = Ok ([registry_state one_block; registry_state one_block], 1).
Proof.
  apply (GetRandomInitialSketch_initial_copies
           (collab := collaborators idle_rules) (space one_block) 2 1).
  - lia.
  - right. intros r _. destruct r as [|[|[|[|r]]]]; reflexivity.
Defined.

Lemma CollectStateTransfer_traversal_steps_witness :
  CollectStateTransfer (collab := collaborators unit_rules) (host 0 0) 3
                       (init_state two_blocks) "B0" (TraversalRuleSampler [0; 1; 2]%nat)
                       2 true 1 0
  = Ok (traverse_rules (collab := collaborators unit_rules) (host 0 0) "B0"
                       true 1 [0; 1]%nat [init_state two_blocks] 0).
Proof.
  apply (CollectStateTransfer_traversal_steps
           (collab := collaborators unit_rules)).
  simpl. lia.
Defined.



Lemma CollectStateTransfer_never_prunes_witness :
  exists res np' extra,
    CollectStateTransfer (collab := collaborators unit_rules) (host 0 0) 3
                         (init_state two_blocks) "B0"
                         (TraversalRuleSampler [0; 1; 2]%nat) 0 true 1 0
      = Ok (res, np') /\
    res = init_state two_blocks :: extra.
Proof.
  pose (o := CollectStateTransfer (collab := collaborators unit_rules)
               (host 0 0) 3 (init_state two_blocks) "B0"
               (TraversalRuleSampler [0; 1; 2]%nat) 0 true 1 0).
  assert (CollectStateTransfer (collab := collaborators unit_rules)
               (host 0 0) 3 (init_state two_blocks) "B0"
               (TraversalRuleSampler [0; 1; 2]%nat) 0 true 1 0 = o) as Hrun
    by reflexivity.
  vm_compute in o. subst o.
  destruct (CollectStateTransfer_never_prunes
              (collab := collaborators unit_rules) (host 0 0) 3
              (init_state two_blocks) "B0" (TraversalRuleSampler [0; 1; 2]%nat)
              0 true 1 0 _ _
              (or_introl (conj eq_refl unit_rules_never_skip_all)) Hrun)
    as [extra Hres].
  eexists _, _, extra. split; [exact Hrun|exact Hres].
Defined.


Lemma GetInitialSketch_count_witness :
  GetInitialSketch (collab := collaborators unit_rules) (space two_blocks)
                   (host 0 0) 5 3 "beam_search" 0 0
  = Fatal strategy_msg.
Proof.
  destruct (GetInitialSketch_count (collab := collaborators unit_rules)
              (space two_blocks) (host 0 0) 5 3 "beam_search" 0 0)
    as (_ & _ & Hfatal).
  apply Hfatal; discriminate.
Defined.

Lemma GetInitialSketch_starves_witness :
  GetInitialSketch (collab := collaborators unit_rules) (space no_blocks)
                   (host 0 0) 50 3 "rule_prune" 0 0
  = OutOfFuel.
Proof.
  destruct (GetInitialSketch_starves (collab := collaborators unit_rules)
              (space no_blocks) (host 0 0) 50 3 0 0) as (Hrule & _).
  - discriminate.
  - discriminate.
  - exact (proj2 (Hrule eq_refl)).
Defined.

Lemma GetInitialSketch_rule_prune_cycle_witness :
  GetInitialSketch (collab := collaborators idle_rules) (space two_blocks)
                   (host 0 0) 10 3 "rule_prune" 0 0
  = Ok (take 3 (concat (replicate 3 (rev [init_state two_blocks]))), O, O).
Proof.
  apply (GetInitialSketch_rule_prune_cycle
           (collab := collaborators idle_rules) (space two_blocks) (host 0 0)
           10 3 0 0 [init_state two_blocks]).
  - vm_compute. reflexivity.
  - discriminate.
  - lia.
  - simpl. lia.
Defined.
